(** * cachetree-redis: the Redis store of lib/store.js

    A shallow embedding of [lib/store.js]: the key composer [cacheKey], the
    value codec ([_stringify], [_parse], [convertValue], [wrapData]) and the
    seven public operations with their reply handlers, followed by the
    properties of the specification that concern them.

    Conventions of the model.
    - JavaScript values are the trees of [value].  A string is a [string] of
      8-bit code units; a Buffer is the [string] of its bytes, and decoding a
      Buffer as utf8 is the identity on it.
    - A finite number is a decimal [Dec m e], standing for [m * 10^e], kept
      with no trailing zero in [m] (the pair the language's number-to-string
      conversion works on).  Arithmetic is exact: the rounding and the range
      of doubles are not modelled, and neither is the negative zero.
    - An object is the list of its own enumerable properties in the order
      the language lists them: array indices first, in ascending order,
      then the other names in order of creation.  The objects the store
      builds ([assign], [wrapData]) are built in that order; JSON text is
      read in the order it is written ([set_prop]), which is that order
      when no array index follows another name.  The prototype of an
      object is not kept: assigning to [__proto__] on a new object creates
      no property, and what a replaced prototype would change is left out.
      The objects a caller hands in are plain, with writable properties.
    - [wrapData] tests [target.hasOwnProperty(name)] on the object it
      fills.  After a property named [hasOwnProperty] has been defined
      there, the test calls that property's value, and throws when it is
      no function; the embedding takes the test for the inherited one, so
      what is stated of a reply with several fields is stated of replies
      without a field of that name ([plain_reply]).
    - The engine client is external: an operation yields the list of
      commands it issues and of callbacks it invokes, and each command
      names the handler that will receive the engine's reply.  The engine
      is taken to call the function it was handed with [(err, data)].
    - A write edits the object the caller hands in, so [set] runs on a
      heap of caller-held objects.  [get], [del] and [flush] also edit an
      array passed as sole argument ([shift], [unshift], assignment by
      index): [get], [del] and [flush] give what the operation issues,
      calls and returns on the values of its arguments, and [get_in],
      [del_in] and [flush_in] add the edit of the caller's array.
    - [Buffer.from] exists ([BUFFER_FROM] is true). *)

From Stdlib Require Import ZArith NArith String Ascii List Lia Bool.
From stdpp Require Import base option list gmap strings.

Open Scope string_scope.
Open Scope list_scope.
Open Scope Z_scope.

(** ** Text *)

(** Text under construction or under analysis is a list of code units. *)
Definition text := list ascii.

Definition str (t : text) : string := string_of_list_ascii t.
Definition chars (s : string) : text := list_ascii_of_string s.

Definition digit_char (d : N) : ascii := ascii_of_N (48 + d).

Definition is_digit (c : ascii) : bool :=
  ((48 <=? N_of_ascii c) && (N_of_ascii c <=? 57))%N.

Definition digit_val (c : ascii) : N := (N_of_ascii c - 48)%N.

(** Decimal digits of [n], most significant first; at most [fuel] of them. *)
Fixpoint digits_fuel (fuel : nat) (n : N) : text :=
  match fuel with
  | O => []
  | S f =>
      if (n <? 10)%N then [digit_char n]
      else digits_fuel f (n / 10)%N ++ [digit_char (n mod 10)%N]
  end.

Definition digits (n : N) : text :=
  digits_fuel (S (N.to_nat (N.log2 n))) n.

(** The number a run of decimal digits denotes. *)
Definition digits_value (t : text) : N :=
  fold_left (fun a c => (a * 10 + digit_val c)%N) t 0%N.

Definition zero_char : ascii := "0"%char.

Definition is_zero_char (c : ascii) : bool :=
  if ascii_dec c zero_char then true else false.

(** Leading zeros of a digit run, counted and removed. *)
Fixpoint drop_zeros (t : text) : nat * text :=
  match t with
  | c :: r => if is_zero_char c then
                let '(k, r') := drop_zeros r in (S k, r')
              else (O, t)
  | [] => (O, [])
  end.

(** Trailing zeros of a digit run, counted and removed. *)
Definition strip_trailing_zeros (t : text) : nat * text :=
  let '(k, r) := drop_zeros (rev t) in (k, rev r).

(** ** Numbers *)

Inductive number : Type :=
| Dec (mant : Z) (expo : Z)
| NaN
| Inf (negative : bool).

(** The decimal with digit run [ds], sign [neg] and exponent [e], in the
    kept form: no trailing zero in the mantissa, and zero is [Dec 0 0]. *)
Definition decimal_of_digits (neg : bool) (ds : text) (e : Z) : number :=
  let '(k, ds') := strip_trailing_zeros ds in
  let m := Z.of_N (digits_value ds') in
  if m =? 0 then Dec 0 0
  else Dec (if neg then - m else m) (e + Z.of_nat k).

Definition normal (m e : Z) : number :=
  decimal_of_digits (m <? 0) (digits (Z.abs_N m)) e.

Definition of_Z (z : Z) : number := normal z 0.

(** A number is kept in normal form when normalising changes nothing. *)
Definition is_normal (n : number) : bool :=
  match n with
  | Dec m e =>
      if m =? 0 then e =? 0
      else negb (is_zero_char (List.last (digits (Z.abs_N m)) zero_char))
  | _ => true
  end.

(** Number::toString for radix 10, on the digits [s] of the mantissa,
    [k = length s] and [n = k + e]. *)
Definition format_positive (s : text) (e : Z) : text :=
  let k := Z.of_nat (length s) in
  let n := k + e in
  if (k <=? n) && (n <=? 21) then
    s ++ repeat zero_char (Z.to_nat (n - k))
  else if (0 <? n) && (n <=? 21) then
    take (Z.to_nat n) s ++ "."%char :: drop (Z.to_nat n) s
  else if (-6 <? n) && (n <=? 0) then
    "0"%char :: "."%char :: repeat zero_char (Z.to_nat (- n)) ++ s
  else
    let x := n - 1 in
    let sign := if x <? 0 then "-"%char else "+"%char in
    let ex := "e"%char :: sign :: digits (Z.abs_N x) in
    match s with
    | [] => ex
    | [d] => d :: ex
    | d :: rest => d :: "."%char :: rest ++ ex
    end.

Definition format_number (n : number) : text :=
  match n with
  | NaN => chars "NaN"
  | Inf false => chars "Infinity"
  | Inf true => chars "-Infinity"
  | Dec m e =>
      if m =? 0 then [zero_char]
      else
        let body := format_positive (digits (Z.abs_N m)) e in
        if m <? 0 then "-"%char :: body else body
  end.

(** ** Values *)

Unset Elimination Schemes.

Inductive value : Type :=
| Undefined
| Null
| Bool (b : bool)
| Num (n : number)
| Str (s : string)
| Buf (bytes : string)
| Arr (elems : list value)
| Obj (props : list (string * value))
| Fun (src : string)
| Err (message : string).

Set Elimination Schemes.

Definition typeof (v : value) : string :=
  match v with
  | Undefined => "undefined"
  | Null => "object"
  | Bool _ => "boolean"
  | Num _ => "number"
  | Str _ => "string"
  | Buf _ | Arr _ | Obj _ | Err _ => "object"
  | Fun _ => "function"
  end.

Definition is_function (v : value) : bool :=
  match v with Fun _ => true | _ => false end.

Definition Array_isArray (v : value) : bool :=
  match v with Arr _ => true | _ => false end.

Definition Buffer_isBuffer (v : value) : bool :=
  match v with Buf _ => true | _ => false end.

(** [v === Object(v)]: [v] is not a primitive. *)
Definition is_object (v : value) : bool :=
  match v with
  | Buf _ | Arr _ | Obj _ | Fun _ | Err _ => true
  | _ => false
  end.

(** Truthiness. *)
Definition truthy (v : value) : bool :=
  match v with
  | Undefined | Null => false
  | Bool b => b
  | Num (Dec m _) => negb (m =? 0)
  | Num NaN => false
  | Num (Inf _) => true
  | Str s => negb (String.eqb s "")
  | _ => true
  end.

Definition join_text (sep : text) : list text -> text :=
  fix go (l : list text) : text :=
    match l with
    | [] => []
    | [x] => x
    | x :: r => x ++ sep ++ go r
    end.

(** ToString, with Array.prototype.join's treatment of elements: a null or
    undefined element contributes the empty string. *)
Fixpoint to_text (v : value) : text :=
  match v with
  | Undefined => chars "undefined"
  | Null => chars "null"
  | Bool true => chars "true"
  | Bool false => chars "false"
  | Num n => format_number n
  | Str s => chars s
  | Buf b => chars b
  | Arr l =>
      join_text [","%char]
        ((fix elems (l : list value) : list text :=
            match l with
            | [] => []
            | x :: r =>
                match x with
                | Undefined | Null => []
                | _ => to_text x
                end :: elems r
            end) l)
  | Obj _ => chars "[object Object]"
  | Fun src => chars src
  | Err m => if String.eqb m "" then chars "Error" else chars "Error: " ++ chars m
  end.

Definition ToString (v : value) : string := str (to_text v).

Definition element_text (v : value) : text :=
  match v with
  | Undefined | Null => []
  | _ => to_text v
  end.

(** Array.prototype.join: [sep] undefined means a comma. *)
Definition Array_join (l : list value) (sep : value) : string :=
  let s := match sep with Undefined => [","%char] | _ => to_text sep end in
  str (join_text s (map element_text l)).

(** ** The store *)

Record store : Type := {
  delimiter : value;
  autoCast : bool
}.

Record options : Type := {
  opt_delimiter : value;
  opt_autoCast : value
}.

(** The constructor, for the two configuration properties it defines. *)
Definition RedisStore (o : options) : store :=
  let type := typeof (opt_delimiter o) in
  {| delimiter :=
       if (String.eqb type "string" && truthy (opt_delimiter o))
          || String.eqb type "number"
       then opt_delimiter o else Str ":";
     autoCast :=
       match opt_autoCast o with Bool false => false | _ => true end |}.

(** The constructor defines [delimiter], [autoCast] and [client] and nothing
    named [_autoCast]: reading that property yields undefined. *)
Definition _autoCast (st : store) : value := Undefined.

Definition cacheKey (st : store) (key : value) : value :=
  match key with
  | Arr (x :: r) => Str (Array_join (x :: r) (delimiter st))
  | _ =>
      let type := typeof key in
      if (String.eqb type "string" && truthy key) || String.eqb type "number"
      then key else Undefined
  end.

(** ** JSON text *)

Definition quote_char : ascii := ascii_of_N 34.
Definition backslash : ascii := ascii_of_N 92.

Definition hex_char (d : N) : ascii :=
  if (d <? 10)%N then ascii_of_N (48 + d) else ascii_of_N (87 + d).

(** QuoteJSONString on one code unit. *)
Definition escape_char (c : ascii) : text :=
  let n := N_of_ascii c in
  if Ascii.eqb c quote_char then [backslash; quote_char]
  else if Ascii.eqb c backslash then [backslash; backslash]
  else if (n =? 8)%N then [backslash; "b"%char]
  else if (n =? 12)%N then [backslash; "f"%char]
  else if (n =? 10)%N then [backslash; "n"%char]
  else if (n =? 13)%N then [backslash; "r"%char]
  else if (n =? 9)%N then [backslash; "t"%char]
  else if (n <? 32)%N then
    [backslash; "u"%char; "0"%char; "0"%char; hex_char (n / 16); hex_char (n mod 16)]
  else [c].

Definition quote (s : string) : text :=
  quote_char :: flat_map escape_char (chars s) ++ [quote_char].

Definition comma_join : list text -> text := join_text [","%char].

(** What [toJSON] of a Buffer serialises to. *)
Definition buffer_json (b : string) : text :=
  chars "{" ++ quote "type" ++ chars ":" ++ quote "Buffer" ++ chars "," ++
  quote "data" ++ chars ":[" ++
  comma_join (map (fun c => digits (N_of_ascii c)) (chars b)) ++ chars "]}".

(** SerializeJSONProperty: [None] is the undefined result. *)
Fixpoint to_json (v : value) : option text :=
  match v with
  | Undefined | Fun _ => None
  | Null => Some (chars "null")
  | Bool true => Some (chars "true")
  | Bool false => Some (chars "false")
  | Num (Dec m e) => Some (format_number (Dec m e))
  | Num _ => Some (chars "null")
  | Str s => Some (quote s)
  | Buf b => Some (buffer_json b)
  | Err _ => Some (chars "{}")
  | Arr l =>
      Some ("["%char ::
            comma_join
              ((fix elems (l : list value) : list text :=
                  match l with
                  | [] => []
                  | x :: r =>
                      match to_json x with
                      | Some t => t
                      | None => chars "null"
                      end :: elems r
                  end) l) ++ ["]"%char])
  | Obj ps =>
      Some ("{"%char ::
            comma_join
              ((fix members (ps : list (string * value)) : list text :=
                  match ps with
                  | [] => []
                  | (k, x) :: r =>
                      match to_json x with
                      | Some t => (quote k ++ ":"%char :: t) :: members r
                      | None => members r
                      end
                  end) ps) ++ ["}"%char])
  end.

Definition JSON_stringify (v : value) : value :=
  match to_json v with
  | Some t => Str (str t)
  | None => Undefined
  end.

(** *** Reading JSON text *)

Definition is_ws (c : ascii) : bool :=
  let n := N_of_ascii c in
  ((n =? 32) || (n =? 9) || (n =? 10) || (n =? 13))%N.

Fixpoint skip_ws (t : text) : text :=
  match t with
  | c :: r => if is_ws c then skip_ws r else t
  | [] => []
  end.

(** The longest run of digits at the head of [t], and what follows it. *)
Fixpoint span_digits (t : text) : text * text :=
  match t with
  | c :: r =>
      if is_digit c then let '(ds, r') := span_digits r in (c :: ds, r')
      else ([], t)
  | [] => ([], [])
  end.

Definition hex_val (c : ascii) : option N :=
  let n := N_of_ascii c in
  if ((48 <=? n) && (n <=? 57))%N then Some (n - 48)%N
  else if ((97 <=? n) && (n <=? 102))%N then Some (n - 87)%N
  else if ((65 <=? n) && (n <=? 70))%N then Some (n - 55)%N
  else None.

Definition hex4 (a b c d : ascii) : option N :=
  match hex_val a, hex_val b, hex_val c, hex_val d with
  | Some x, Some y, Some z, Some w => Some (((x * 16 + y) * 16 + z) * 16 + w)%N
  | _, _, _, _ => None
  end.

Definition simple_escape (e : ascii) : option ascii :=
  if Ascii.eqb e quote_char then Some quote_char
  else if Ascii.eqb e backslash then Some backslash
  else if Ascii.eqb e "/"%char then Some "/"%char
  else if Ascii.eqb e "b"%char then Some (ascii_of_N 8)
  else if Ascii.eqb e "f"%char then Some (ascii_of_N 12)
  else if Ascii.eqb e "n"%char then Some (ascii_of_N 10)
  else if Ascii.eqb e "r"%char then Some (ascii_of_N 13)
  else if Ascii.eqb e "t"%char then Some (ascii_of_N 9)
  else None.

Definition consume (c : ascii) (r : option (text * text)) : option (text * text) :=
  match r with
  | Some (s, rest) => Some (c :: s, rest)
  | None => None
  end.

(** The characters of a string literal, up to its closing quote.  An
    escape naming a code unit above 255 has no counterpart among 8-bit
    strings and is refused. *)
Fixpoint read_string (t : text) : option (text * text) :=
  match t with
  | [] => None
  | c :: r =>
      if Ascii.eqb c quote_char then Some ([], r)
      else if Ascii.eqb c backslash then
        match r with
        | [] => None
        | e :: r1 =>
            match simple_escape e with
            | Some x => consume x (read_string r1)
            | None =>
                if Ascii.eqb e "u"%char then
                  match r1 with
                  | h1 :: h2 :: h3 :: h4 :: r2 =>
                      match hex4 h1 h2 h3 h4 with
                      | Some n =>
                          if (n <? 256)%N then consume (ascii_of_N n) (read_string r2)
                          else None
                      | None => None
                      end
                  | _ => None
                  end
                else None
            end
        end
      else if (N_of_ascii c <? 32)%N then None
      else consume c (read_string r)
  end.

(** The fraction of a number literal: a point and at least one digit. *)
Definition read_fraction (t : text) : option (text * text) :=
  match t with
  | c :: r =>
      if Ascii.eqb c "."%char then
        match span_digits r with
        | ([], _) => None
        | (fs, r') => Some (fs, r')
        end
      else Some ([], t)
  | [] => Some ([], t)
  end.

(** The exponent of a number literal: [e] or [E], a sign, digits. *)
Definition read_exponent (t : text) : option (Z * text) :=
  match t with
  | c :: r =>
      if Ascii.eqb c "e"%char || Ascii.eqb c "E"%char then
        let '(neg, r1) :=
          match r with
          | s :: r' =>
              if Ascii.eqb s "-"%char then (true, r')
              else if Ascii.eqb s "+"%char then (false, r')
              else (false, r)
          | [] => (false, r)
          end in
        match span_digits r1 with
        | ([], _) => None
        | (xs, r2) =>
            let x := Z.of_N (digits_value xs) in
            Some (if neg then - x else x, r2)
        end
      else Some (0, t)
  | [] => Some (0, t)
  end.

Definition read_integer (t : text) : option (text * text) :=
  match t with
  | c :: r =>
      if Ascii.eqb c zero_char then Some ([c], r)
      else if is_digit c then Some (span_digits t)
      else None
  | [] => None
  end.

Definition read_magnitude (neg : bool) (t : text) : option (number * text) :=
  match read_integer t with
  | None => None
  | Some (ints, t2) =>
      match read_fraction t2 with
      | None => None
      | Some (fs, t3) =>
          match read_exponent t3 with
          | None => None
          | Some (x, t4) =>
              Some (decimal_of_digits neg (ints ++ fs) (x - Z.of_nat (length fs)), t4)
          end
      end
  end.

(** A number literal: sign, integer part without superfluous leading zero,
    fraction, exponent. *)
Definition read_number (t : text) : option (number * text) :=
  match t with
  | c :: r =>
      if Ascii.eqb c "-"%char then read_magnitude true r
      else read_magnitude false t
  | [] => None
  end.

Definition has_prop (ps : list (string * value)) (k : string) : bool :=
  existsb (fun p => String.eqb (fst p) k) ps.

(** A member read by [JSON.parse] defined on the property list of the
    object being read: an existing property keeps its place, a new one
    goes last. *)
Fixpoint set_prop (ps : list (string * value)) (k : string) (v : value)
  : list (string * value) :=
  match ps with
  | [] => [(k, v)]
  | (k', x) :: r =>
      if String.eqb k' k then (k', v) :: r else (k', x) :: set_prop r k v
  end.

Fixpoint get_prop (ps : list (string * value)) (k : string) : value :=
  match ps with
  | [] => Undefined
  | (k', x) :: r => if String.eqb k' k then x else get_prop r k
  end.

(** An array index: the decimal, without superfluous zero, of a number
    below [2^32 - 1]. *)
Definition array_index (k : string) : option N :=
  match chars k with
  | [] => None
  | c :: r =>
      if forallb is_digit (c :: r) && (negb (is_zero_char c) || (length r =? 0)%nat)
      then
        let n := digits_value (c :: r) in
        if (n <? 4294967295)%N then Some n else None
      else None
  end.

(** The own properties of an ordinary object are listed array indices
    first, in ascending order, then the other names in order of creation:
    the place a new property takes. *)
Fixpoint insert_index (n : N) (p : string * value) (ps : list (string * value))
  : list (string * value) :=
  match ps with
  | [] => [p]
  | q :: r =>
      match array_index (fst q) with
      | Some m => if (m <? n)%N then q :: insert_index n p r else p :: ps
      | None => p :: ps
      end
  end.

Definition add_prop (ps : list (string * value)) (k : string) (v : value)
  : list (string * value) :=
  match array_index k with
  | Some n => insert_index n (k, v) ps
  | None => ps ++ [(k, v)]
  end.

(** [data[k] = v] on an object created as [{}].  The name [__proto__]
    reaches the accessor inherited from [Object.prototype] and creates no
    property: given a primitive other than null the accessor does nothing;
    given an object or null it replaces the prototype, which the embedding
    does not keep (the properties of this section exclude that case). *)
Definition assign (ps : list (string * value)) (k : string) (v : value)
  : list (string * value) :=
  if String.eqb k "__proto__" then ps
  else if has_prop ps k then set_prop ps k v
  else add_prop ps k v.

Definition expect (lit : string) (v : value) (t : text) : option (value * text) :=
  let l := chars lit in
  if decide (take (length l) t = l) then Some (v, drop (length l) t) else None.

Fixpoint read_value (fuel : nat) (t : text) : option (value * text) :=
  match fuel with
  | O => None
  | S f =>
      match skip_ws t with
      | [] => None
      | c :: r =>
          if Ascii.eqb c "n"%char then expect "null" Null (c :: r)
          else if Ascii.eqb c "t"%char then expect "true" (Bool true) (c :: r)
          else if Ascii.eqb c "f"%char then expect "false" (Bool false) (c :: r)
          else if Ascii.eqb c quote_char then
            match read_string r with
            | Some (s, r') => Some (Str (str s), r')
            | None => None
            end
          else if Ascii.eqb c "["%char then
            match skip_ws r with
            | c' :: r' =>
                if Ascii.eqb c' "]"%char then Some (Arr [], r')
                else read_elements f (c' :: r') []
            | [] => None
            end
          else if Ascii.eqb c "{"%char then
            match skip_ws r with
            | c' :: r' =>
                if Ascii.eqb c' "}"%char then Some (Obj [], r')
                else read_members f (c' :: r') []
            | [] => None
            end
          else
            match read_number (c :: r) with
            | Some (n, r') => Some (Num n, r')
            | None => None
            end
      end
  end
with read_elements (fuel : nat) (t : text) (acc : list value)
  : option (value * text) :=
  match fuel with
  | O => None
  | S f =>
      match read_value f t with
      | None => None
      | Some (v, r) =>
          match skip_ws r with
          | c :: r' =>
              if Ascii.eqb c ","%char then read_elements f r' (acc ++ [v])
              else if Ascii.eqb c "]"%char then Some (Arr (acc ++ [v]), r')
              else None
          | [] => None
          end
      end
  end
with read_members (fuel : nat) (t : text) (acc : list (string * value))
  : option (value * text) :=
  match fuel with
  | O => None
  | S f =>
      match skip_ws t with
      | q :: r0 =>
          if Ascii.eqb q quote_char then
            match read_string r0 with
            | None => None
            | Some (k, r1) =>
                match skip_ws r1 with
                | c1 :: r2 =>
                    if Ascii.eqb c1 ":"%char then
                      match read_value f r2 with
                      | None => None
                      | Some (v, r3) =>
                          match skip_ws r3 with
                          | c :: r' =>
                              if Ascii.eqb c ","%char then
                                read_members f r' (set_prop acc (str k) v)
                              else if Ascii.eqb c "}"%char then
                                Some (Obj (set_prop acc (str k) v), r')
                              else None
                          | [] => None
                          end
                      end
                    else None
                | [] => None
                end
            end
          else None
      | [] => None
      end
  end.

(** JSON.parse: [None] stands for the SyntaxError it throws. *)
Definition JSON_parse (s : string) : option value :=
  let t := chars s in
  match read_value (S (2 * length t)) t with
  | Some (v, rest) =>
      match skip_ws rest with
      | [] => Some v
      | _ => None
      end
  | None => None
  end.

(** ** The value codec *)

Definition convertValue (v cast : value) : value :=
  match v with
  | Null | Undefined => v
  | _ =>
      let val := match v with Buf b => Str b | _ => v end in
      match cast, val with
      | Bool false, _ => val
      | _, Str s =>
          match JSON_parse s with
          | Some parsed => parsed
          | None => val
          end
      | _, _ => val
      end
  end.

Definition _stringify (st : store) (v : value) : value :=
  if negb (autoCast st) || Buffer_isBuffer v || String.eqb (typeof v) "string"
  then v
  else JSON_stringify v.

Definition _parse (st : store) (v : value) : value :=
  if Buffer_isBuffer v then v
  else convertValue v (Bool (autoCast st)).

(** ** Auxiliary notions for the round trip *)

Definition next_is (P : ascii -> bool) (t : text) : bool :=
  match t with
  | c :: _ => P c
  | [] => false
  end.

Definition is_terminator (c : ascii) : bool :=
  Ascii.eqb c ","%char || Ascii.eqb c "]"%char || Ascii.eqb c "}"%char.

(** What may follow a value inside JSON text produced by [to_json]. *)
Definition closed (t : text) : bool :=
  match t with
  | c :: _ => is_terminator c
  | [] => true
  end.


(** The decimal of sign [neg], digit run [s] and exponent [e]. *)
Definition signed_decimal (neg : bool) (s : text) (e : Z) : number :=
  Dec (if neg then - Z.of_N (digits_value s) else Z.of_N (digits_value s)) e.

(** The values JSON text represents: null, booleans, finite numbers in
    normal form, strings, and arrays and objects of such values, an
    object having pairwise distinct property names. *)
Fixpoint json_value (v : value) : bool :=
  match v with
  | Null | Bool _ | Str _ => true
  | Num (Dec m e) => is_normal (Dec m e)
  | Arr l => forallb json_value l
  | Obj ps =>
      bool_decide (NoDup (map fst ps)) && forallb (fun p => json_value (snd p)) ps
  | _ => false
  end.

Definition element_json (v : value) : text :=
  match to_json v with
  | Some t => t
  | None => chars "null"
  end.

Definition member_json (p : string * value) : text :=
  quote (fst p) ++ ":"%char :: element_json (snd p).

(** Reading the text of [v] gives [v] back and leaves what follows. *)
Definition reads_back (v : value) : Prop :=
  json_value v = true ->
  forall (pv : text) (fuel : nat) (rest : text),
    to_json v = Some pv ->
    (2 * length pv < fuel)%nat ->
    closed rest = true ->
    read_value fuel (pv ++ rest) = Some (v, rest).

(** ** Results and effects of an operation *)

(** [createBuffer]: [Buffer.from(str, 'utf8')].  Only a key reaches it, a
    string or a number; on a number [Buffer.from] throws a TypeError,
    which [None] stands for. *)
Definition createBuffer (v : value) : option value :=
  match v with
  | Str s => Some (Buf s)
  | Buf b => Some (Buf b)
  | _ => None
  end.

Definition noop : value := Fun "function() {}".

Definition is_true (v : value) : bool :=
  match v with Bool true => true | _ => false end.

Definition is_false (v : value) : bool :=
  match v with Bool false => true | _ => false end.

Definition is_nullish (v : value) : bool :=
  match v with Undefined | Null => true | _ => false end.

(** [v === 1]. *)
Definition is_one (v : value) : bool :=
  match v with
  | Num (Dec m e) => (m =? 1) && (e =? 0)
  | _ => false
  end.

Definition index_name (i : nat) : string := str (digits (N.of_nat i)).

(** The own enumerable properties of a value, as [Object.keys] lists them
    and as indexing reads them. *)
Definition own_props (v : value) : list (string * value) :=
  match v with
  | Obj ps => ps
  | Arr l => imap (fun i x => (index_name i, x)) l
  | Buf b => imap (fun i c => (index_name i, Num (of_Z (Z.of_N (N_of_ascii c))))) (chars b)
  | _ => []
  end.

Definition is_js_space (c : ascii) : bool :=
  let n := N_of_ascii c in
  ((n =? 32) || ((9 <=? n) && (n <=? 13)) || (n =? 160))%N.

Fixpoint trim_left (t : text) : text :=
  match t with
  | c :: r => if is_js_space c then trim_left r else t
  | [] => []
  end.

(** [parseInt(s, 10)]. *)
Definition parseInt (s : string) : number :=
  let t := trim_left (chars s) in
  let '(neg, t1) :=
    match t with
    | c :: r =>
        if Ascii.eqb c "-"%char then (true, r)
        else if Ascii.eqb c "+"%char then (false, r)
        else (false, t)
    | [] => (false, t)
    end in
  match span_digits t1 with
  | ([], _) => NaN
  | (ds, _) => decimal_of_digits neg ds 0
  end.

(** The lazily converting property that [wrapData] defines on [target],
    given by the value its getter yields and listed where
    [Object.defineProperty] puts it.  The test
    [target.hasOwnProperty(name)] is taken for the inherited method. *)
Definition wrapData (target : list (string * value)) (name : string) (v : value)
  (rawBuffer cast : value) : list (string * value) :=
  if has_prop target name then target
  else
    add_prop target name
      (if is_nullish v || (is_true rawBuffer && Buffer_isBuffer v) then v
       else convertValue v cast).

(** The engine's commands. *)
Definition loc := positive.

(** An argument is a value written in the call, or the object the caller
    holds at a place of the heap: cell [l], then down the array indices
    of [path]. *)
Inductive arg : Type :=
| Imm (v : value)
| At (l : loc) (path : list nat).

Inductive command : Type :=
| hgetall (key : value)
| hmget (key : value) (fields : list value)
| hmset (key : value) (data : arg)
| hexists (key field : value)
| hdel (args : list value)
| hkeys (key : value)
| client_keys (pattern : value)
| client_del (args : list value).

(** The function handed to the engine with a command. *)
Inductive handler : Type :=
| Direct (cb : value)
| OnHgetall (cb asBuffer : value)
| OnHmget (cb : value) (args : list value) (asBuffer : value)
| OnKeys (cb : value)
| OnHexists (cb : value)
| OnHdel (cb : value)
| OnHkeys (cb : value).

Inductive event : Type :=
| Issue (c : command) (h : handler)
| Invoke (f : value) (args : list value).

(** What a call returns: the store itself, whatever a call of [f] returns,
    or nothing because an exception escapes. *)
Inductive outcome : Type :=
| ReturnThis
| ReturnCall (f : value) (args : list value)
| Throws.

Definition is_issue (e : event) : bool :=
  match e with Issue _ _ => true | Invoke _ _ => false end.

(** ** Reply handlers *)

(** [keys.map(convertValue)]: [map] passes the element and its index. *)
Definition map_convertValue (l : list value) : list value :=
  imap (fun i x => convertValue x (Num (of_Z (Z.of_nat i)))) l.

(** What the function handed to the engine does with the reply
    [(err, data)]. *)
Definition reply (st : store) (h : handler) (err data : value) : list event :=
  match h with
  | Direct cb => [Invoke cb [err; data]]
  | OnHgetall cb asBuffer =>
      let output :=
        if truthy data && is_object data then
          Obj (fold_left
                 (fun out p => wrapData out (fst p) (snd p) asBuffer (_autoCast st))
                 (own_props data) [])
        else Undefined in
      [Invoke cb [err; output]]
  | OnHmget cb args asBuffer =>
      let output :=
        match data with
        | Arr d =>
            if (length args =? 1)%nat then
              let val := hd Undefined d in
              if is_true asBuffer && Buffer_isBuffer val then val
              else convertValue val (_autoCast st)
            else if (length args =? length d)%nat then
              Obj (fold_left
                     (fun out p =>
                        wrapData out (ToString (fst p)) (snd p) asBuffer (_autoCast st))
                     (zip args d) [])
            else Undefined
        | _ => Undefined
        end in
      [Invoke cb [err; match output with Undefined => Null | _ => output end]]
  | OnKeys cb | OnHkeys cb =>
      [Invoke cb [err; match data with
                       | Arr l => Arr (map_convertValue l)
                       | _ => data
                       end]]
  | OnHexists cb =>
      let val :=
        match data with
        | Buf b => Num (parseInt b)
        | _ => data
        end in
      [Invoke cb [Null; Bool (is_one val)]]
  | OnHdel cb =>
      if is_function cb then [Invoke cb [err]] else []
  end.

(** ** Operations *)

(** What an operation issues, calls and returns, on the values of its
    arguments.  The edits [get], [del] and [flush] make to an array of
    the caller are added by [get_in], [del_in] and [flush_in] below. *)

(** [args.pop()] and [args.shift()]. *)
Definition pop {A} (d : A) (l : list A) : A * list A := (List.last l d, removelast l).
Definition shift {A} (d : A) (l : list A) : A * list A := (hd d l, tl l).

Definition get (st : store) (arguments : list value) : outcome * list event :=
  let '(cb, args) := pop Undefined arguments in
  let '(k, args) := shift Undefined args in
  let key := cacheKey st k in
  if negb (is_function cb) then (ReturnThis, [])
  else if truthy key then
    let args := match args with [Arr l] => l | _ => args end in
    let first := hd Undefined args in
    let '(asBuffer, args) :=
      if (negb (length args =? 0)%nat && is_true first) || is_false first
      then (first, tl args) else (Bool false, args) in
    let key' := if is_true asBuffer then createBuffer key else Some key in
    match key' with
    | None => (Throws, [])
    | Some key =>
        match args with
        | [] => (ReturnThis, [Issue (hgetall key) (OnHgetall cb asBuffer)])
        | _ => (ReturnThis, [Issue (hmget key args) (OnHmget cb args asBuffer)])
        end
    end
  else (ReturnThis, [Invoke cb [Err "Invalid key"]]).

Definition keys (st : store) (pattern cb : value) : outcome * list event :=
  if is_function pattern then (ReturnThis, [Invoke pattern [Err "Invalid pattern"]])
  else if negb (is_function cb) then (ReturnThis, [])
  else
    let pattern := if Array_isArray pattern then cacheKey st pattern else pattern in
    let type := typeof pattern in
    if (String.eqb type "string" && truthy pattern) || String.eqb type "number"
    then (ReturnThis, [Issue (client_keys pattern) (OnKeys cb)])
    else (ReturnThis, [Invoke cb [Err "Invalid pattern"]]).

Definition exists_ (st : store) (key field cb : value) : outcome * list event :=
  let first :=
    if is_function key then [Invoke key [Err "Invalid key"]]
    else if is_function field then [Invoke field [Err "Invalid field"]]
    else [] in
  if negb (is_function cb) then (ReturnThis, first)
  else
    let key := cacheKey st key in
    if negb (truthy key)
    then (ReturnCall cb [Err "Invalid key"], first ++ [Invoke cb [Err "Invalid key"]])
    else (ReturnThis, first ++ [Issue (hexists key field) (OnHexists cb)]).

Definition del (st : store) (arguments : list value) : outcome * list event :=
  let '(cb, args) := pop Undefined arguments in
  let '(k, args) := shift Undefined args in
  let key := cacheKey st k in
  let '(cb, args) :=
    if negb (is_function cb) then (Null, args ++ [cb]) else (cb, args) in
  if truthy key then
    let args := match args with [Arr l] => l | _ => args end in
    (ReturnThis, [Issue (hdel (key :: args)) (OnHdel cb)])
  else
    (ReturnThis, if is_function cb then [Invoke cb [Err "Invalid key"]] else []).

Definition flush (st : store) (arguments : list value) : outcome * list event :=
  let '(cb, args) :=
    match arguments with
    | [] => (Undefined, arguments)
    | _ =>
        if negb (Array_isArray (List.last arguments Undefined))
        then pop Undefined arguments else (Undefined, arguments)
    end in
  let args := match args with [Arr l] => l | _ => args end in
  match args with
  | [] => (ReturnThis, if is_function cb then [Invoke cb [Err "Invalid key"]] else [])
  | _ =>
      (ReturnThis,
       [Issue (client_del (map (cacheKey st) args))
          (Direct (if truthy cb then cb else noop))])
  end.

Definition fields (st : store) (key cb : value) : outcome * list event :=
  let first := if is_function key then [Invoke key [Err "Invalid key"]] else [] in
  if negb (is_function cb) then (ReturnThis, first)
  else
    let key := cacheKey st key in
    if negb (truthy key)
    then (ReturnCall cb [Err "Invalid key"], first ++ [Invoke cb [Err "Invalid key"]])
    else (ReturnThis, first ++ [Issue (hkeys key) (OnHkeys cb)]).

(** ** Writing, with the caller's objects *)

(** The objects the caller holds.  A value written in the call is an
    [Imm]; an object the caller keeps a reference to lives in a cell. *)
Abbreviation heap := (gmap loc value).

Fixpoint follow (v : value) (path : list nat) : value :=
  match path with
  | [] => v
  | i :: p =>
      match v with
      | Arr l => follow (nth i l Undefined) p
      | _ => Undefined
      end
  end.

Fixpoint replace_at (v : value) (path : list nat) (new : value) : value :=
  match path with
  | [] => new
  | i :: p =>
      match v with
      | Arr l => Arr (<[i := replace_at (nth i l Undefined) p new]> l)
      | _ => v
      end
  end.

Definition load (h : heap) (a : arg) : value :=
  match a with
  | Imm v => v
  | At l p =>
      match h !! l with
      | Some v => follow v p
      | None => Undefined
      end
  end.

Definition store_at (h : heap) (a : arg) (new : value) : heap :=
  match a with
  | Imm _ => h
  | At l p =>
      match h !! l with
      | Some v => <[l := replace_at v p new]> h
      | None => h
      end
  end.

Arguments load : simpl nomatch.
Arguments store_at : simpl nomatch.

(** The object [a] denotes takes the contents [new]: in its cell when the
    caller holds it, and otherwise as the value passed on. *)
Definition update (h : heap) (a : arg) (new : value) : heap * arg :=
  match a with
  | Imm _ => (h, Imm new)
  | At _ _ => (store_at h a new, a)
  end.

(** The elements of the array [a] denotes, each at its own place. *)
Definition elements (h : heap) (a : arg) : list arg :=
  match load h a with
  | Arr es =>
      match a with
      | Imm _ => map Imm es
      | At l p => imap (fun i _ => At l (p ++ [i])) es
      end
  | _ => []
  end.

(** [if (len === 1 && Array.isArray(args[0])) args = args[0]]. *)
Definition unwrap (h : heap) (args : list arg) : list arg :=
  match args with
  | [a] => if Array_isArray (load h a) then elements h a else args
  | _ => args
  end.

(** [Object.keys(data).forEach(val => data[val] = self._stringify(data[val]))]:
    the object after the loop, its properties being writable.  A Buffer's
    elements take back the bytes they held; a function or an Error has no
    enumerable property. *)
Definition encode_in_place (st : store) (v : value) : value :=
  match v with
  | Obj ps => Obj (map (fun p => (fst p, _stringify st (snd p))) ps)
  | Arr l => Arr (map (_stringify st) l)
  | _ => v
  end.

(** [for (i = 0; i < len; i += 2) if (i + 1 < len) data[args[i]] = ...]. *)
Fixpoint set_pairs (st : store) (args : list value) (data : list (string * value))
  : list (string * value) :=
  match args with
  | f :: v :: rest => set_pairs st rest (assign data (ToString f) (_stringify st v))
  | _ => data
  end.

Definition set (st : store) (h : heap) (arguments : list arg)
  : heap * outcome * list event :=
  let '(cb, args) := pop (Imm Undefined) arguments in
  let '(k, args) := shift (Imm Undefined) args in
  let key := cacheKey st (load h k) in
  let '(cb, args) :=
    if truthy (load h cb) && negb (is_function (load h cb))
    then (Null, args ++ [cb]) else (load h cb, args) in
  if truthy key then
    match unwrap h args with
    | [] =>
        (h, ReturnThis,
         if is_function cb then [Invoke cb [Err "Invalid data"; Num (Dec 0 0)]] else [])
    | args =>
        let args := unwrap h args in
        let '(h', data) :=
          match args with
          | [a] =>
              if is_object (load h a)
              then update h a (encode_in_place st (load h a))
              else (h, Imm Undefined)
          | _ =>
              let vs := map (load h) args in
              (h, Imm (Obj
                 (match vs with
                  | [f; v] => assign [] (ToString f) (_stringify st v)
                  | _ :: _ :: _ :: _ => set_pairs st vs []
                  | _ => []
                  end)))
          end in
        (h', ReturnThis,
         [Issue (hmset key data) (Direct (if truthy cb then cb else noop))])
    end
  else
    (h, ReturnThis,
     if is_function cb then [Invoke cb [Err "Invalid key"; Num (Dec 0 0)]] else []).

(** The store the specification's scenarios use: no option given. *)
Definition no_options : options :=
  {| opt_delimiter := Undefined; opt_autoCast := Undefined |}.

Definition callback : value := Fun "function(err, result) {}".



(** The object that assigning [pairs] in order to [{}] builds. *)
Definition assign_all (pairs : list (string * value)) : list (string * value) :=
  fold_left (fun d p => assign d (fst p) (snd p)) pairs [].

(** The value handed to a callback in the error position. *)
Definition first_argument (e : event) : value :=
  match e with
  | Invoke _ args => hd Undefined args
  | Issue _ _ => Undefined
  end.




(** ** Further notions used by the properties of the whole store *)

(** What a reader of a result object finds under a property that
    [wrapData] defined for the engine value [v]. *)
Definition delivered (rawBuffer cast v : value) : value :=
  if is_nullish v || (is_true rawBuffer && Buffer_isBuffer v) then v
  else convertValue v cast.

(** A reply that the handlers wrap as this text has it: the record, or
    the fields asked for, name no property [hasOwnProperty].  (Once
    [wrapData] has defined a property of that name on its result, its
    next test [target.hasOwnProperty(name)] calls the value found there;
    that call is not part of the embedding.) *)
Definition plain_reply (h : handler) (data : value) : bool :=
  match h with
  | OnHgetall _ _ => negb (has_prop (own_props data) "hasOwnProperty")
  | OnHmget _ args _ =>
      negb (existsb (fun a => String.eqb (ToString a) "hasOwnProperty") args)
  | _ => true
  end.


(** A list of arguments that array unwrapping leaves alone: it is not
    made of one array. *)
Definition not_one_array (l : list value) : bool :=
  match l with
  | [Arr _] => false
  | _ => true
  end.

Definition is_boolean (v : value) : bool :=
  match v with Bool _ => true | _ => false end.

(** ** The connection the constructor opens *)

(** The options that concern the engine's client; an option left out is
    undefined. *)
Record connection : Type := {
  opt_client : value;
  opt_port : value;
  opt_host : value;
  opt_options : value;
  opt_pw : value;
  opt_pass : value;
  opt_password : value;
  opt_db : value;
  opt_database : value
}.

Unset Elimination Schemes.

(** What the constructor asks of the [redis] module and of the client it
    creates.  The function handed to [auth] takes no notice of the reply,
    so it is given by the calls it makes. *)
Inductive client_call : Type :=
| createClient (port host options : value)
| auth (pw : value) (callback : list client_call)
| select (db : value).
Set Elimination Schemes.

(** [a || b]. *)
Definition or_else (a b : value) : value := if truthy a then a else b.

Definition isNaN (n : number) : bool :=
  match n with NaN => true | _ => false end.

(** [typeof db === 'number' && !isNaN(db)]. *)
Definition is_database (db : value) : bool :=
  match db with
  | Num n => negb (isNaN n)
  | _ => false
  end.

(** The part of the constructor that obtains the client. *)
Definition RedisStore_client (o : connection) : list client_call :=
  if truthy (opt_client o) then []
  else
    let pw := or_else (or_else (opt_pw o) (opt_pass o)) (opt_password o) in
    let db := or_else (opt_db o) (opt_database o) in
    let db :=
      if negb (String.eqb (typeof db) "number") then
        if String.eqb (typeof db) "string" then Num (parseInt (ToString db)) else db
      else db in
    let db :=
      if truthy db && negb (String.eqb (typeof db) "number")
      then Num (parseInt (ToString db)) else db in
    let db := if negb (is_database db) then Null else db in
    createClient (opt_port o) (opt_host o) (opt_options o) ::
    (if truthy pw then [auth pw (if is_database db then [select db] else [])]
     else if is_database db then [select db] else []).

(** The databases selected, at once or on the reply to [auth]. *)
Definition selected (calls : list client_call) : list value :=
  let now c := match c with select db => [db] | _ => [] end in
  flat_map (fun c => match c with
                     | auth _ cb => flat_map now cb
                     | _ => now c
                     end) calls.

(** The database that the options name. *)
Definition named_database (o : connection) : list value :=
  match or_else (opt_db o) (opt_database o) with
  | Num n => if isNaN n then [] else [Num n]
  | v =>
      if truthy v || String.eqb (typeof v) "string" then
        match parseInt (ToString v) with
        | NaN => []
        | n => [Num n]
        end
      else []
  end.


(** The numbers of [v] are integers below [2^53] in magnitude: those a
    double holds exactly and the language prints digit for digit, on
    which the exact decimals of this text and the language's numbers
    agree. *)
Fixpoint safe_numbers (v : value) : bool :=
  match v with
  | Num (Dec m e) => (0 <=? e) && (Z.abs m * 10 ^ e <? 2 ^ 53)
  | Num _ => false
  | Arr l => forallb safe_numbers l
  | Obj ps => forallb (fun p => safe_numbers (snd p)) ps
  | _ => true
  end.

(** ** Reading, deleting and clearing, with the caller's arrays *)

(** [if (len === 1 && Array.isArray(args[0])) args = args[0]]: the
    argument list is then the caller's array itself, given here with its
    elements. *)
Definition sole_array (h : heap) (args : list arg) : option (arg * list value) :=
  match args with
  | [a] => match load h a with Arr l => Some (a, l) | _ => None end
  | _ => None
  end.

(** [get] on the caller's heap: what [get] issues, calls and returns on
    the values of the arguments, and the array left without its flag by
    [args.shift()]. *)
Definition get_in (st : store) (h : heap) (arguments : list arg)
  : heap * outcome * list event :=
  let '(cb, args) := pop (Imm Undefined) arguments in
  let '(k, args) := shift (Imm Undefined) args in
  let h' :=
    if is_function (load h cb) && truthy (cacheKey st (load h k)) then
      match sole_array h args with
      | Some (a, first :: l) =>
          if is_true first || is_false first then fst (update h a (Arr l)) else h
      | _ => h
      end
    else h in
  let '(o, evs) := get st (map (load h) arguments) in
  (h', o, evs).

(** [del] on the caller's heap: [args.unshift(key)] puts the key in front
    of the caller's array. *)
Definition del_in (st : store) (h : heap) (arguments : list arg)
  : heap * outcome * list event :=
  let '(cb, args) := pop (Imm Undefined) arguments in
  let '(k, args) := shift (Imm Undefined) args in
  let key := cacheKey st (load h k) in
  let args := if negb (is_function (load h cb)) then args ++ [cb] else args in
  let h' :=
    if truthy key then
      match sole_array h args with
      | Some (a, l) => fst (update h a (Arr (key :: l)))
      | None => h
      end
    else h in
  let '(o, evs) := del st (map (load h) arguments) in
  (h', o, evs).

(** [flush] on the caller's heap: [args[index] = this.cacheKey(value)]
    overwrites the elements of the caller's array. *)
Definition flush_in (st : store) (h : heap) (arguments : list arg)
  : heap * outcome * list event :=
  let '(cb, args) :=
    match arguments with
    | [] => (Imm Undefined, arguments)
    | _ =>
        if negb (Array_isArray (load h (List.last arguments (Imm Undefined))))
        then pop (Imm Undefined) arguments else (Imm Undefined, arguments)
    end in
  let h' :=
    match sole_array h args with
    | Some (a, x :: l) => fst (update h a (Arr (map (cacheKey st) (x :: l))))
    | _ => h
    end in
  let '(o, evs) := flush st (map (load h) arguments) in
  (h', o, evs).

(** * Properties *)

(** ** Cases of the repository's test suite *)

Example test_custom_delimiter :
  delimiter (RedisStore {| opt_delimiter := Str "-"; opt_autoCast := Undefined |}) = Str "-".
Proof. reflexivity. Qed.

Example test_autoCast_default : autoCast (RedisStore no_options) = true.
Proof. reflexivity. Qed.

Example test_autoCast_option :
  autoCast (RedisStore {| opt_delimiter := Undefined; opt_autoCast := Bool false |}) = false.
Proof. reflexivity. Qed.

Example test_cacheKey_array :
  cacheKey (RedisStore no_options) (Arr [Str "alpha"; Str "bravo"]) = Str "alpha:bravo" /\
  cacheKey (RedisStore {| opt_delimiter := Str "-"; opt_autoCast := Undefined |})
    (Arr [Str "alpha"; Str "bravo"]) = Str "alpha-bravo".
Proof. split; reflexivity. Qed.

Example test_cacheKey_number :
  cacheKey (RedisStore no_options) (Num (of_Z 1234)) = Num (of_Z 1234).
Proof. reflexivity. Qed.

Example test_parse :
  _parse (RedisStore {| opt_delimiter := Undefined; opt_autoCast := Bool false |})
    (Str "1234") = Str "1234" /\
  _parse (RedisStore no_options) (Buf "1234") = Buf "1234" /\
  _parse (RedisStore no_options) (Str "1234") = Num (of_Z 1234).
Proof. repeat split; vm_compute; reflexivity. Qed.

Example test_stringify :
  _stringify (RedisStore {| opt_delimiter := Undefined; opt_autoCast := Bool false |})
    (Num (of_Z 1234)) = Num (of_Z 1234) /\
  _stringify (RedisStore no_options) (Buf "1234") = Buf "1234" /\
  _stringify (RedisStore no_options) (Num (of_Z 1234)) = Str "1234".
Proof. repeat split; vm_compute; reflexivity. Qed.

Example test_get_chaining :
  get (RedisStore no_options) [] = (ReturnThis, []) /\
  get (RedisStore no_options) [callback] =
    (ReturnThis, [Invoke callback [Err "Invalid key"]]).
Proof. split; reflexivity. Qed.

Example test_get_array_key :
  get (RedisStore no_options) [Arr [Str "icao"]; Str "alpha"; callback] =
    (ReturnThis, [Issue (hmget (Str "icao") [Str "alpha"])
                    (OnHmget callback [Str "alpha"] (Bool false))]).
Proof. reflexivity. Qed.

Example test_get_missing_fields :
  let st := RedisStore no_options in
  reply st (OnHmget callback [Str "echo"] (Bool false)) Null (Arr [Null]) =
    [Invoke callback [Null; Null]] /\
  reply st (OnHmget callback [Str "echo"; Str "foxtrot"] (Bool false)) Null
    (Arr [Null; Null]) =
    [Invoke callback [Null; Obj [("echo", Null); ("foxtrot", Null)]]].
Proof. split; reflexivity. Qed.

Example test_get_numeric :
  let st := RedisStore no_options in
  get st [Str "icao"; Bool false; Str "xray"; callback] =
    (ReturnThis, [Issue (hmget (Str "icao") [Str "xray"])
                    (OnHmget callback [Str "xray"] (Bool false))]) /\
  reply st (OnHmget callback [Str "xray"] (Bool false)) Null (Arr [Buf "13"]) =
    [Invoke callback [Null; Num (of_Z 13)]] /\
  get st [Str "icao"; Bool true; Str "xray"; callback] =
    (ReturnThis, [Issue (hmget (Buf "icao") [Str "xray"])
                    (OnHmget callback [Str "xray"] (Bool true))]) /\
  reply st (OnHmget callback [Str "xray"] (Bool true)) Null (Arr [Buf "13"]) =
    [Invoke callback [Null; Buf "13"]].
Proof. repeat split; vm_compute; reflexivity. Qed.

Example test_set_missing_key :
  set (RedisStore no_options) ∅ [] = (∅, ReturnThis, []) /\
  set (RedisStore no_options) ∅ [Imm callback] =
    (∅, ReturnThis, [Invoke callback [Err "Invalid key"; Num (Dec 0 0)]]).
Proof. split; reflexivity. Qed.

Example test_set_fields :
  let st := RedisStore no_options in
  let sent := Imm (Obj [("alpha", Str "dot dash"); ("bravo", Str "dash dot dot dot");
                        ("charlie", Str "dash dot dash dot")]) in
  let pairs := [Str "alpha"; Str "dot dash"; Str "bravo"; Str "dash dot dot dot";
                Str "charlie"; Str "dash dot dash dot"; Str "delta"] in
  set st ∅ (Imm (Str "icao") :: map Imm pairs ++ [Imm callback]) =
    (∅, ReturnThis, [Issue (hmset (Str "icao") sent) (Direct callback)]) /\
  set st ∅ [Imm (Str "icao"); Imm (Arr pairs); Imm callback] =
    (∅, ReturnThis, [Issue (hmset (Str "icao") sent) (Direct callback)]).
Proof. split; vm_compute; reflexivity. Qed.

Example test_set_object :
  set (RedisStore no_options) ∅
    [Imm (Str "icao"); Imm (Obj [("alpha", Str "dot dash"); ("xray", Num (of_Z 13))]);
     Imm callback] =
    (∅, ReturnThis,
     [Issue (hmset (Str "icao") (Imm (Obj [("alpha", Str "dot dash"); ("xray", Str "13")])))
        (Direct callback)]).
Proof. reflexivity. Qed.

Example test_keys :
  let st := RedisStore no_options in
  keys st Undefined Undefined = (ReturnThis, []) /\
  keys st callback Undefined = (ReturnThis, [Invoke callback [Err "Invalid pattern"]]) /\
  keys st (Obj []) callback = (ReturnThis, [Invoke callback [Err "Invalid pattern"]]) /\
  keys st (Str "ic*") callback =
    (ReturnThis, [Issue (client_keys (Str "ic*")) (OnKeys callback)]) /\
  reply st (OnKeys callback) Null (Arr [Buf "icao"; Buf "icao:more"]) =
    [Invoke callback [Null; Arr [Str "icao"; Str "icao:more"]]].
Proof. repeat split; vm_compute; reflexivity. Qed.

Example test_exists :
  let st := RedisStore no_options in
  exists_ st Undefined Undefined Undefined = (ReturnThis, []) /\
  exists_ st callback Undefined Undefined =
    (ReturnThis, [Invoke callback [Err "Invalid key"]]) /\
  exists_ st (Str "icao") callback Undefined =
    (ReturnThis, [Invoke callback [Err "Invalid field"]]) /\
  exists_ st (Arr [Str "icao"]) (Str "bravo") callback =
    (ReturnThis, [Issue (hexists (Str "icao") (Str "bravo")) (OnHexists callback)]) /\
  reply st (OnHexists callback) Null (Num (of_Z 1)) = [Invoke callback [Null; Bool true]] /\
  reply st (OnHexists callback) Null (Buf "1") = [Invoke callback [Null; Bool true]] /\
  reply st (OnHexists callback) Null (Num (of_Z 0)) = [Invoke callback [Null; Bool false]].
Proof. repeat split; vm_compute; reflexivity. Qed.

Example test_del :
  let st := RedisStore no_options in
  del st [] = (ReturnThis, []) /\
  del st [callback] = (ReturnThis, [Invoke callback [Err "Invalid key"]]) /\
  del st [Str "icao"; Str "alpha"; Str "bravo"; callback] =
    (ReturnThis, [Issue (hdel [Str "icao"; Str "alpha"; Str "bravo"]) (OnHdel callback)]) /\
  del st [Str "icao"; Arr [Str "alpha"; Str "bravo"]; callback] =
    (ReturnThis, [Issue (hdel [Str "icao"; Str "alpha"; Str "bravo"]) (OnHdel callback)]).
Proof. repeat split; reflexivity. Qed.

Example test_flush :
  let st := RedisStore no_options in
  flush st [] = (ReturnThis, []) /\
  flush st [callback] = (ReturnThis, [Invoke callback [Err "Invalid key"]]) /\
  flush st [Arr [Str "icao"]; Str "alpha"; callback] =
    (ReturnThis, [Issue (client_del [Str "icao"; Str "alpha"]) (Direct callback)]) /\
  flush st [Arr [Str "icao"; Str "icao:more"; Str "icao"]; callback] =
    (ReturnThis,
     [Issue (client_del [Str "icao"; Str "icao:more"; Str "icao"]) (Direct callback)]).
Proof. repeat split; reflexivity. Qed.

Example test_fields :
  let st := RedisStore no_options in
  fields st Undefined Undefined = (ReturnThis, []) /\
  fields st callback Undefined = (ReturnThis, [Invoke callback [Err "Invalid key"]]) /\
  fields st (Arr [Str "icao"]) callback =
    (ReturnThis, [Issue (hkeys (Str "icao")) (OnHkeys callback)]) /\
  reply st (OnHkeys callback) Null (Arr [Buf "alpha"; Buf "bravo"]) =
    [Invoke callback [Null; Arr [Str "alpha"; Str "bravo"]]] /\
  reply st (OnHkeys callback) Null (Arr []) = [Invoke callback [Null; Arr []]].
Proof. repeat split; vm_compute; reflexivity. Qed.

(** ** Text and digits *)


Lemma str_chars (s : string) : str (chars s) = s.
Proof. apply string_of_list_ascii_of_string. Qed.

Lemma chars_str (t : text) : chars (str t) = t.
Proof. apply list_ascii_of_string_of_list_ascii. Qed.


Lemma digits_fuel_last (f : nat) (n : N) :
  exists t, digits_fuel (S f) n = t ++ [digit_char (n mod 10)%N].
Proof.
  simpl. destruct (N.ltb_spec n 10).
  - exists []. simpl. now rewrite N.mod_small.
  - eexists. reflexivity.
Qed.

Lemma digits_last (n : N) :
  exists t, digits n = t ++ [digit_char (n mod 10)%N].
Proof. apply digits_fuel_last. Qed.

Lemma digits_nonempty (n : N) : digits n <> [].
Proof. destruct (digits_last n) as [t ->]. now destruct t. Qed.



(** ** The key composer *)

Lemma join_text_cons (sep x y : text) (r : list text) :
  join_text sep (x :: y :: r) = x ++ sep ++ join_text sep (y :: r).
Proof. reflexivity. Qed.





(** ** Decimal digits *)

Lemma digits_value_snoc (t : text) (c : ascii) :
  digits_value (t ++ [c]) = (digits_value t * 10 + digit_val c)%N.
Proof. unfold digits_value. now rewrite fold_left_app. Qed.

Lemma digit_char_val (d : N) : (d < 10)%N -> digit_val (digit_char d) = d.
Proof.
  intros H. unfold digit_val, digit_char.
  rewrite N_ascii_embedding by lia. lia.
Qed.

Lemma digit_char_is_digit (d : N) : (d < 10)%N -> is_digit (digit_char d) = true.
Proof.
  intros H. unfold is_digit, digit_char.
  rewrite N_ascii_embedding by lia.
  apply andb_true_intro; split; apply N.leb_le; lia.
Qed.

Lemma digit_char_zero (d : N) :
  (d < 10)%N -> is_zero_char (digit_char d) = true -> d = 0%N.
Proof.
  intros H. unfold is_zero_char. destruct (ascii_dec _ _) as [E|]; [|discriminate].
  intros _. apply (f_equal N_of_ascii) in E. unfold digit_char in E.
  rewrite N_ascii_embedding in E by lia. simpl in E. lia.
Qed.

Lemma digits_fuel_spec (f : nat) (n : N) :
  (n < 2 ^ N.of_nat f)%N ->
  digits_value (digits_fuel f n) = n /\
  Forall (fun c => is_digit c = true) (digits_fuel f n) /\
  (n <> 0%N ->
   exists c t, digits_fuel f n = c :: t /\ is_zero_char c = false).
Proof.
  revert n. induction f as [|f IH]; intros n Hn.
  - simpl in Hn. assert (n = 0%N) by lia. subst. repeat split; [constructor | congruence].
  - cbn [digits_fuel]. destruct (N.ltb_spec n 10) as [Hlt|Hge].
    + repeat split.
      * unfold digits_value; simpl. now rewrite digit_char_val.
      * repeat constructor. now apply digit_char_is_digit.
      * intros Hz. eexists _, _. split; [reflexivity|].
        destruct (is_zero_char (digit_char n)) eqn:E; [|reflexivity].
        now apply digit_char_zero in E.
    + assert (Hdiv : (n / 10 < 2 ^ N.of_nat f)%N).
      { rewrite Nat2N.inj_succ, N.pow_succ_r' in Hn.
        apply N.Div0.div_lt_upper_bound. lia. }
      assert (Hmod : (n mod 10 < 10)%N) by (apply N.mod_lt; lia).
      destruct (IH _ Hdiv) as [Hv [Hd Hh]]. repeat split.
      * rewrite digits_value_snoc, Hv, digit_char_val by assumption.
        pose proof (N.div_mod n 10). lia.
      * apply Forall_app; split; [assumption|].
        repeat constructor. now apply digit_char_is_digit.
      * intros _. destruct Hh as [c [t [E Hc]]].
        { intros H0. apply N.div_small_iff in H0; lia. }
        rewrite E. eexists _, _. split; [reflexivity | assumption].
Qed.

Lemma digits_fuel_enough (n : N) : (n < 2 ^ N.of_nat (S (N.to_nat (N.log2 n))))%N.
Proof.
  rewrite Nat2N.inj_succ, N2Nat.id.
  destruct n as [|p]; [reflexivity|].
  apply N.log2_spec. reflexivity.
Qed.

Lemma digits_value_digits (n : N) : digits_value (digits n) = n.
Proof. apply digits_fuel_spec, digits_fuel_enough. Qed.

Lemma digits_all_digit (n : N) : Forall (fun c => is_digit c = true) (digits n).
Proof. apply digits_fuel_spec, digits_fuel_enough. Qed.

Lemma digits_head (n : N) :
  n <> 0%N -> exists c t, digits n = c :: t /\ is_zero_char c = false.
Proof. apply digits_fuel_spec, digits_fuel_enough. Qed.

Lemma digits_value_zeros (a : nat) (t : text) :
  digits_value (repeat zero_char a ++ t) = digits_value t.
Proof.
  unfold digits_value. rewrite fold_left_app. f_equal.
  induction a as [|a IH]; [reflexivity|]. simpl. exact IH.
Qed.

Lemma drop_zeros_repeat (b : nat) (t : text) :
  (match t with [] => True | c :: _ => is_zero_char c = false end) ->
  drop_zeros (repeat zero_char b ++ t) = (b, t).
Proof.
  intros Ht. induction b as [|b IH]; simpl.
  - destruct t as [|c t]; [reflexivity|]. simpl. now rewrite Ht.
  - now rewrite IH.
Qed.

Lemma rev_repeat_zero (b : nat) : rev (repeat zero_char b) = repeat zero_char b.
Proof.
  induction b as [|b IH]; [reflexivity|]. simpl. rewrite IH.
  change [zero_char] with (repeat zero_char 1).
  rewrite <- repeat_app. now replace (b + 1)%nat with (S b) by lia.
Qed.

(** Zeros around a digit run that ends in a non-zero digit: those in front
    do not count, those behind raise the exponent. *)
Lemma decimal_of_digits_padded (neg : bool) (a b : nat) (s : text) (c : ascii) (e : Z) :
  is_zero_char c = false ->
  digits_value (s ++ [c]) <> 0%N ->
  decimal_of_digits neg (repeat zero_char a ++ (s ++ [c]) ++ repeat zero_char b) e =
  Dec (if neg then - Z.of_N (digits_value (s ++ [c]))
       else Z.of_N (digits_value (s ++ [c]))) (e + Z.of_nat b).
Proof.
  intros Hc Hv. unfold decimal_of_digits, strip_trailing_zeros.
  rewrite !rev_app_distr, rev_repeat_zero. simpl rev at 1. simpl app at 1.
  rewrite <- app_assoc.
  rewrite (drop_zeros_repeat b ((c :: rev s) ++ _)) by exact Hc.
  change ((c :: rev s) ++ rev (repeat zero_char a))
    with ([c] ++ rev s ++ rev (repeat zero_char a)).
  rewrite !rev_app_distr, !rev_involutive. simpl rev.
  rewrite <- app_assoc, digits_value_zeros.
  destruct (Z.eqb_spec (Z.of_N (digits_value (s ++ [c]))) 0); [lia | reflexivity].
Qed.

(** ** Reading back a printed number *)

Lemma terminator_cases (c : ascii) :
  is_terminator c = true -> c = ","%char \/ c = "]"%char \/ c = "}"%char.
Proof.
  unfold is_terminator. intros H.
  destruct (Ascii.eqb_spec c ","%char); [now left|].
  destruct (Ascii.eqb_spec c "]"%char); [now right; left|].
  destruct (Ascii.eqb_spec c "}"%char); [now right; right | discriminate].
Qed.

Lemma closed_next (P : ascii -> bool) (t : text) :
  P ","%char = false -> P "]"%char = false -> P "}"%char = false ->
  closed t = true -> next_is P t = false.
Proof.
  intros H1 H2 H3 Hc. destruct t as [|c t]; [reflexivity|]. simpl in *.
  destruct (terminator_cases c Hc) as [->|[->| ->]]; assumption.
Qed.

Lemma span_digits_app (ds r : text) :
  Forall (fun c => is_digit c = true) ds ->
  next_is is_digit r = false ->
  span_digits (ds ++ r) = (ds, r).
Proof.
  intros Hd Hr. induction Hd as [|c ds Hc Hd IH]; simpl.
  - destruct r as [|c r]; [reflexivity|]. simpl in *. now rewrite Hr.
  - now rewrite Hc, IH.
Qed.

Lemma read_fraction_none (t : text) :
  next_is (fun c => Ascii.eqb c "."%char) t = false ->
  read_fraction t = Some ([], t).
Proof. destruct t as [|c t]; simpl; [reflexivity|]. now intros ->. Qed.

Lemma read_fraction_some (fs r : text) :
  fs <> [] ->
  Forall (fun c => is_digit c = true) fs ->
  next_is is_digit r = false ->
  read_fraction ("."%char :: fs ++ r) = Some (fs, r).
Proof.
  intros Hne Hd Hr. unfold read_fraction.
  rewrite Ascii.eqb_refl, span_digits_app by assumption.
  now destruct fs.
Qed.

Lemma read_exponent_none (t : text) :
  next_is (fun c => Ascii.eqb c "e"%char || Ascii.eqb c "E"%char) t = false ->
  read_exponent t = Some (0, t).
Proof. destruct t as [|c t]; simpl; [reflexivity|]. now intros ->. Qed.

Lemma read_exponent_some (x : Z) (r : text) :
  next_is is_digit r = false ->
  read_exponent
    ("e"%char :: (if x <? 0 then "-"%char else "+"%char) :: digits (Z.abs_N x) ++ r)
  = Some (x, r).
Proof.
  intros Hr. unfold read_exponent. rewrite Ascii.eqb_refl. cbn [orb].
  assert (E : span_digits (digits (Z.abs_N x) ++ r) = (digits (Z.abs_N x), r))
    by (apply span_digits_app; [apply digits_all_digit | assumption]).
  pose proof (digits_nonempty (Z.abs_N x)) as Hne.
  pose proof (digits_value_digits (Z.abs_N x)) as Hv.
  destruct (Z.ltb_spec x 0); cbn -[digits]; rewrite E;
    destruct (digits (Z.abs_N x)) eqn:Ed; try congruence;
    rewrite Hv; do 2 f_equal; lia.
Qed.

Lemma read_integer_run (c : ascii) (ds u : text) :
  is_zero_char c = false ->
  Forall (fun c => is_digit c = true) (c :: ds) ->
  next_is is_digit u = false ->
  read_integer (c :: ds ++ u) = Some (c :: ds, u).
Proof.
  intros Hz Hd Hu. unfold read_integer.
  assert (Ascii.eqb c zero_char = false) as ->.
  { unfold is_zero_char in Hz. destruct (Ascii.eqb_spec c zero_char); [|reflexivity].
    now destruct (ascii_dec c zero_char). }
  inversion Hd as [|? ? Hc Hds]; subst. rewrite Hc.
  change (c :: ds ++ u) with ((c :: ds) ++ u).
  now rewrite span_digits_app.
Qed.

Lemma read_magnitude_parts (neg : bool) (t ints t2 fs t3 t4 : text) (x : Z) :
  read_integer t = Some (ints, t2) ->
  read_fraction t2 = Some (fs, t3) ->
  read_exponent t3 = Some (x, t4) ->
  read_magnitude neg t =
  Some (decimal_of_digits neg (ints ++ fs) (x - Z.of_nat (length fs)), t4).
Proof. intros H1 H2 H3. unfold read_magnitude. now rewrite H1, H2, H3. Qed.

Lemma closed_no_digit (t : text) : closed t = true -> next_is is_digit t = false.
Proof. now apply closed_next. Qed.

Lemma closed_no_point (t : text) :
  closed t = true -> next_is (fun c => Ascii.eqb c "."%char) t = false.
Proof. now apply closed_next. Qed.

Lemma closed_no_exponent (t : text) :
  closed t = true ->
  next_is (fun c => Ascii.eqb c "e"%char || Ascii.eqb c "E"%char) t = false.
Proof. now apply closed_next. Qed.

Lemma repeat_zero_digits (b : nat) :
  Forall (fun c => is_digit c = true) (repeat zero_char b).
Proof. induction b; simpl; now constructor. Qed.

Section ReadFormatted.

(** A digit run [s] as [digits] produces it for a mantissa in normal
    form: no zero in front, no zero at the end. *)
Variables (s s0 s1 : text) (c0 cl : ascii).
Hypothesis Hdigits : Forall (fun c => is_digit c = true) s.
Hypothesis Hhead : s = c0 :: s0.
Hypothesis Hc0 : is_zero_char c0 = false.
Hypothesis Hlast : s = s1 ++ [cl].
Hypothesis Hcl : is_zero_char cl = false.
Hypothesis Hvalue : digits_value s <> 0%N.

Variables (neg : bool) (rest : text).
Hypothesis Hrest : closed rest = true.

Local Abbreviation result := (signed_decimal neg s).

Lemma padded (a b : nat) (e : Z) :
  decimal_of_digits neg (repeat zero_char a ++ s ++ repeat zero_char b) e =
  result (e + Z.of_nat b).
Proof.
  unfold signed_decimal. rewrite Hlast. apply decimal_of_digits_padded; [assumption|].
  now rewrite <- Hlast.
Qed.

Lemma padded_back (b : nat) (e : Z) :
  decimal_of_digits neg (s ++ repeat zero_char b) e = result (e + Z.of_nat b).
Proof. exact (padded 0 b e). Qed.

Lemma padded_front (a : nat) (e : Z) :
  decimal_of_digits neg (repeat zero_char a ++ s) e = result e.
Proof.
  pose proof (padded a 0 e) as H. simpl in H.
  now rewrite app_nil_r, Z.add_0_r in H.
Qed.

Lemma read_plain_integer (b : nat) :
  read_magnitude neg ((s ++ repeat zero_char b) ++ rest) = Some (result (Z.of_nat b), rest).
Proof.
  erewrite read_magnitude_parts with (x := 0) (ints := s ++ repeat zero_char b)
    (fs := []) (t2 := rest) (t3 := rest) (t4 := rest).
  - rewrite app_nil_r. now rewrite padded_back.
  - rewrite Hhead. simpl. rewrite app_comm_cons.
    apply read_integer_run; [assumption | | now apply closed_no_digit].
    rewrite app_comm_cons, <- Hhead. apply Forall_app; split;
      [assumption | apply repeat_zero_digits].
  - now apply read_fraction_none, closed_no_point.
  - now apply read_exponent_none, closed_no_exponent.
Qed.

Lemma read_positional (n : nat) :
  (0 < n < length s)%nat ->
  read_magnitude neg ((take n s ++ "."%char :: drop n s) ++ rest) =
  Some (result (Z.of_nat n - Z.of_nat (length s)), rest).
Proof.
  intros Hn.
  erewrite read_magnitude_parts with (x := 0) (ints := take n s) (fs := drop n s)
    (t2 := "."%char :: drop n s ++ rest) (t3 := rest) (t4 := rest).
  - rewrite take_drop, (padded_front 0), length_drop. unfold signed_decimal. do 3 f_equal. lia.
  - rewrite <- app_assoc. rewrite Hhead in *. destruct n as [|n]; [lia|].
    cbn [take]. simpl. apply read_integer_run; [assumption | | reflexivity].
    rewrite <- (take_drop n s0) in Hdigits.
    rewrite app_comm_cons in Hdigits. now apply Forall_app in Hdigits.
  - simpl. apply read_fraction_some.
    + intros E. apply (f_equal length) in E. rewrite length_drop in E. simpl in E. lia.
    + rewrite <- (take_drop n s) in Hdigits. now apply Forall_app in Hdigits.
    + now apply closed_no_digit.
  - now apply read_exponent_none, closed_no_exponent.
Qed.

Lemma read_small (a : nat) :
  read_magnitude neg (("0"%char :: "."%char :: repeat zero_char a ++ s) ++ rest) =
  Some (result (- Z.of_nat a - Z.of_nat (length s)), rest).
Proof.
  erewrite read_magnitude_parts with (x := 0) (ints := [zero_char])
    (fs := repeat zero_char a ++ s) (t4 := rest) (t3 := rest)
    (t2 := "."%char :: (repeat zero_char a ++ s) ++ rest).
  - change ([zero_char] ++ repeat zero_char a ++ s)
      with (repeat zero_char (S a) ++ s).
    rewrite padded_front, length_app, repeat_length. unfold signed_decimal. do 3 f_equal. lia.
  - reflexivity.
  - simpl. rewrite <- app_assoc, app_assoc. apply read_fraction_some.
    + rewrite Hhead. now destruct a.
    + apply Forall_app; split; [apply repeat_zero_digits | assumption].
    + now apply closed_no_digit.
  - now apply read_exponent_none, closed_no_exponent.
Qed.

Lemma read_exponential (x : Z) :
  let ex := "e"%char :: (if x <? 0 then "-"%char else "+"%char) :: digits (Z.abs_N x) in
  read_magnitude neg
    (match s with
     | [] => ex
     | [d] => d :: ex
     | d :: r => d :: "."%char :: r ++ ex
     end ++ rest) =
  Some (result (x + 1 - Z.of_nat (length s)), rest).
Proof.
  intros ex. pose proof (padded_front 0) as Hp. simpl in Hp.
  rewrite Hhead in *. destruct s0 as [|c1 s2].
  - erewrite read_magnitude_parts with (ints := [c0]) (fs := []) (x := x)
      (t2 := ex ++ rest) (t3 := ex ++ rest) (t4 := rest).
    + simpl app. rewrite Hp. unfold signed_decimal. do 3 f_equal. simpl. lia.
    + simpl. apply (read_integer_run c0 []); [assumption | assumption | reflexivity].
    + now apply read_fraction_none.
    + unfold ex. simpl. apply read_exponent_some. now apply closed_no_digit.
  - cbn [app]. rewrite <- app_assoc.
    erewrite read_magnitude_parts with (ints := [c0]) (fs := c1 :: s2) (x := x)
      (t2 := "."%char :: (c1 :: s2) ++ ex ++ rest) (t3 := ex ++ rest) (t4 := rest).
    + simpl app. rewrite Hp. unfold signed_decimal. do 3 f_equal. simpl length. lia.
    + apply (read_integer_run c0 []); [assumption | | reflexivity].
      inversion Hdigits; subst. now repeat constructor.
    + apply (read_fraction_some (c1 :: s2) (ex ++ rest)); [discriminate | | reflexivity].
      now inversion Hdigits.
    + unfold ex. simpl. apply read_exponent_some. now apply closed_no_digit.
Qed.

(** Reading what [format_positive] printed gives the number back. *)
Lemma read_format_positive (e : Z) :
  read_magnitude neg (format_positive s e ++ rest) = Some (result e, rest).
Proof.
  unfold format_positive.
  assert (Hlen : (0 < length s)%nat) by (rewrite Hhead; simpl; lia).
  destruct (Z.leb_spec (Z.of_nat (length s)) (Z.of_nat (length s) + e));
    [destruct (Z.leb_spec (Z.of_nat (length s) + e) 21)|]; cbn [andb].
  1: { rewrite read_plain_integer. do 3 f_equal. lia. }
  all: destruct (Z.ltb_spec 0 (Z.of_nat (length s) + e));
    [destruct (Z.leb_spec (Z.of_nat (length s) + e) 21)|]; cbn [andb].
  all: try (rewrite read_positional by lia; do 3 f_equal; lia).
  all: try (destruct (Z.ltb_spec (-6) (Z.of_nat (length s) + e));
    [destruct (Z.leb_spec (Z.of_nat (length s) + e) 0)|]; cbn [andb]).
  all: try (rewrite read_small; do 3 f_equal; lia).
  all: try (rewrite read_exponential; do 3 f_equal; lia).
Qed.

End ReadFormatted.

Lemma read_number_unsigned (t : text) (r : number * text) :
  read_magnitude false t = Some r -> read_number t = Some r.
Proof.
  destruct t as [|c t]; [discriminate|]. unfold read_number.
  destruct (Ascii.eqb_spec c "-"%char) as [->|]; [discriminate | trivial].
Qed.

Lemma last_snoc_text (t : text) (c d : ascii) : List.last (t ++ [c]) d = c.
Proof. apply List.last_last. Qed.

(** A finite number in normal form is read back from its printed form. *)
Lemma read_number_format (m e : Z) (rest : text) :
  is_normal (Dec m e) = true ->
  closed rest = true ->
  read_number (format_number (Dec m e) ++ rest) = Some (Dec m e, rest).
Proof.
  intros Hn Hrest. unfold is_normal in Hn. unfold format_number.
  destruct (Z.eqb_spec m 0) as [->|Hm].
  - apply Z.eqb_eq in Hn. subst e. apply read_number_unsigned.
    rewrite (read_magnitude_parts false _ [zero_char] rest [] rest rest 0);
      [reflexivity | reflexivity | |].
    + now apply read_fraction_none, closed_no_point.
    + now apply read_exponent_none, closed_no_exponent.
  - assert (HN : Z.abs_N m <> 0%N) by lia.
    destruct (digits_head _ HN) as [c0 [s0 [Hhead Hc0]]].
    destruct (digits_last (Z.abs_N m)) as [s1 Hlast].
    rewrite Hlast, last_snoc_text in Hn. apply negb_true_iff in Hn.
    pose proof (digits_all_digit (Z.abs_N m)) as Hd.
    pose proof (digits_value_digits (Z.abs_N m)) as Hv.
    assert (Hv' : digits_value (digits (Z.abs_N m)) <> 0%N) by congruence.
    destruct (Z.ltb_spec m 0) as [Hneg|Hpos].
    + cbn [app]. unfold read_number. rewrite Ascii.eqb_refl.
      rewrite (read_format_positive _ s0 s1 c0 _ Hd Hhead Hc0 Hlast Hn Hv' true rest Hrest).
      unfold signed_decimal. rewrite Hv. do 3 f_equal. lia.
    + apply read_number_unsigned.
      rewrite (read_format_positive _ s0 s1 c0 _ Hd Hhead Hc0 Hlast Hn Hv' false rest Hrest).
      unfold signed_decimal. rewrite Hv. do 3 f_equal. lia.
Qed.

(** The first character of a printed finite number. *)
Lemma format_number_head (m e : Z) :
  exists c t, format_number (Dec m e) = c :: t /\
              (c = "-"%char \/ is_digit c = true).
Proof.
  unfold format_number. destruct (Z.eqb_spec m 0) as [->|Hm].
  - eexists _, _. split; [reflexivity | now right].
  - destruct (m <? 0); [eexists _, _; split; [reflexivity | now left]|].
    assert (HN : Z.abs_N m <> 0%N) by lia.
    destruct (digits_head _ HN) as [c0 [s0 [Hhead Hc0]]].
    pose proof (digits_all_digit (Z.abs_N m)) as Hd.
    rewrite Hhead in *. inversion Hd as [|? ? Hd0 _]; subst.
    unfold format_positive.
    set (n := Z.of_nat (length (c0 :: s0)) + e).
    destruct (_ <=? n); [destruct (n <=? 21)|]; cbn [andb];
      try (eexists _, _; split; [reflexivity | now right]).
    all: destruct (Z.ltb_spec 0 n); [destruct (n <=? 21)|]; cbn [andb].
    all: try (destruct (Z.to_nat n) eqn:En; [lia|];
              eexists _, _; split; [reflexivity | now right]).
    all: destruct (-6 <? n); [destruct (n <=? 0)|]; cbn [andb];
      try (eexists _, _; split; [reflexivity | now right]).
    all: destruct s0; eexists _, _; (split; [reflexivity | now right]).
Qed.

(** ** Reading back a quoted string *)

Lemma read_string_escape (c : ascii) (r : text) :
  read_string (escape_char c ++ r) = consume c (read_string r).
Proof.
  destruct c as [[] [] [] [] [] [] [] []]; reflexivity.
Qed.

Lemma read_string_quoted (cs rest : text) :
  read_string (flat_map escape_char cs ++ quote_char :: rest) = Some (cs, rest).
Proof.
  induction cs as [|c cs IH]; [reflexivity|].
  cbn [flat_map]. now rewrite <- app_assoc, read_string_escape, IH.
Qed.

(** ** Reading back a printed value *)

(** Evaluates the whitespace tests on the characters that are known. *)
Ltac known_chars :=
  repeat first
    [ progress cbn [skip_ws Ascii.eqb Bool.eqb]
    | progress cbv iota
    | match goal with
      | |- context [is_ws (Ascii ?a ?b ?c ?d ?e ?f ?g ?h)] =>
          let v := eval vm_compute in (is_ws (Ascii a b c d e f g h)) in
          change (is_ws (Ascii a b c d e f g h)) with v
      end
    | progress change (is_ws quote_char) with false ].

Lemma value_ind (P : value -> Prop)
  (HUndefined : P Undefined) (HNull : P Null)
  (HBool : forall b, P (Bool b)) (HNum : forall n, P (Num n))
  (HStr : forall s, P (Str s)) (HBuf : forall b, P (Buf b))
  (HArr : forall l, Forall P l -> P (Arr l))
  (HObj : forall ps, Forall (fun p => P (snd p)) ps -> P (Obj ps))
  (HFun : forall f, P (Fun f)) (HErr : forall m, P (Err m)) :
  forall v, P v.
Proof.
  fix IH 1. intros [| |b|n|s|b|l|ps|f|m].
  - exact HUndefined.
  - exact HNull.
  - apply HBool.
  - apply HNum.
  - apply HStr.
  - apply HBuf.
  - apply HArr. induction l as [|x l IHl]; constructor; [apply IH | exact IHl].
  - apply HObj. induction ps as [|[k x] ps IHps]; constructor; [apply IH | exact IHps].
  - apply HFun.
  - apply HErr.
Qed.

Lemma to_json_array (l : list value) :
  to_json (Arr l) = Some ("["%char :: comma_join (map element_json l) ++ ["]"%char]).
Proof.
  reflexivity.
Qed.

Lemma json_value_some (v : value) :
  json_value v = true -> exists t, to_json v = Some t.
Proof.
  destruct v as [| |[|]|[m e| |[|]]|s|b|l|ps|f|m]; try discriminate; intros _;
    eexists; reflexivity.
Qed.

Lemma to_json_object (ps : list (string * value)) :
  forallb (fun p => json_value (snd p)) ps = true ->
  to_json (Obj ps) = Some ("{"%char :: comma_join (map member_json ps) ++ ["}"%char]).
Proof.
  intros H. cbn [to_json].
  match goal with
  | |- Some (_ :: comma_join ?m ++ _) = _ =>
      assert (E : m = map member_json ps); [|now rewrite E]
  end.
  induction ps as [|[k x] ps IH]; [reflexivity|].
  cbn [forallb] in H. apply andb_true_iff in H as [Hx Hps].
  cbn [map]. rewrite <- (IH Hps). unfold member_json, element_json. simpl fst. simpl snd.
  now destruct (json_value_some x Hx) as [t ->].
Qed.

Lemma digit_not_space (c : ascii) :
  c = "-"%char \/ is_digit c = true ->
  is_ws c = false /\ Ascii.eqb c "]"%char = false.
Proof.
  destruct c as [[] [] [] [] [] [] [] []]; intros [H|H];
    try discriminate H; split; reflexivity.
Qed.

Lemma read_value_number (f : nat) (c : ascii) (t : text) :
  c = "-"%char \/ is_digit c = true ->
  read_value (S f) (c :: t) =
  match read_number (c :: t) with
  | Some (n, r) => Some (Num n, r)
  | None => None
  end.
Proof.
  destruct c as [[] [] [] [] [] [] [] []]; intros [H|H];
    try discriminate H; reflexivity.
Qed.

Lemma read_value_string (f : nat) (t : text) :
  read_value (S f) (quote_char :: t) =
  match read_string t with
  | Some (s, r) => Some (Str (str s), r)
  | None => None
  end.
Proof. reflexivity. Qed.

Lemma read_value_array (f : nat) (c : ascii) (t : text) :
  is_ws c = false -> Ascii.eqb c "]"%char = false ->
  read_value (S f) ("["%char :: c :: t) = read_elements f (c :: t) [].
Proof.
  intros Hw Hc.
  change (read_value (S f) ("["%char :: c :: t)) with
    (match skip_ws (c :: t) with
     | c' :: r' =>
         if Ascii.eqb c' "]"%char then Some (Arr [], r')
         else read_elements f (c' :: r') []
     | [] => None
     end).
  cbn [skip_ws]. now rewrite Hw, Hc.
Qed.

Lemma read_value_object (f : nat) (t : text) :
  read_value (S f) ("{"%char :: quote_char :: t) = read_members f (quote_char :: t) [].
Proof. reflexivity. Qed.

Lemma read_elements_more (f : nat) (t r : text) (acc : list value) (v : value) :
  read_value f t = Some (v, ","%char :: r) ->
  read_elements (S f) t acc = read_elements f r (acc ++ [v]).
Proof. intros H. cbn [read_elements]. rewrite H. now known_chars. Qed.

Lemma read_elements_last (f : nat) (t r : text) (acc : list value) (v : value) :
  read_value f t = Some (v, "]"%char :: r) ->
  read_elements (S f) t acc = Some (Arr (acc ++ [v]), r).
Proof. intros H. cbn [read_elements]. rewrite H. now known_chars. Qed.

Lemma read_members_more (f : nat) (k : string) (t r : text)
  (acc : list (string * value)) (v : value) :
  read_value f t = Some (v, ","%char :: r) ->
  read_members (S f) (quote k ++ ":"%char :: t) acc =
  read_members f r (set_prop acc k v).
Proof.
  intros H. unfold quote. cbn [read_members app]. known_chars.
  rewrite Ascii.eqb_refl.
  rewrite <- app_assoc. cbn [app]. rewrite read_string_quoted.
  known_chars. rewrite H. known_chars. now rewrite str_chars.
Qed.

Lemma read_members_last (f : nat) (k : string) (t r : text)
  (acc : list (string * value)) (v : value) :
  read_value f t = Some (v, "}"%char :: r) ->
  read_members (S f) (quote k ++ ":"%char :: t) acc =
  Some (Obj (set_prop acc k v), r).
Proof.
  intros H. unfold quote. cbn [read_members app]. known_chars.
  rewrite Ascii.eqb_refl.
  rewrite <- app_assoc. cbn [app]. rewrite read_string_quoted.
  known_chars. rewrite H. known_chars. now rewrite str_chars.
Qed.

Lemma set_prop_fresh (acc : list (string * value)) (k : string) (v : value) :
  k ∉ map fst acc -> set_prop acc k v = acc ++ [(k, v)].
Proof.
  induction acc as [|[k' x] acc IH]; intros Hk; [reflexivity|].
  cbn [set_prop app]. cbn [map fst] in Hk.
  apply not_elem_of_cons in Hk as [Hne Hk].
  destruct (String.eqb_spec k' k) as [->|_]; [congruence|].
  now rewrite IH.
Qed.

Lemma value_head (v : value) (pv : text) :
  json_value v = true -> to_json v = Some pv ->
  exists c t, pv = c :: t /\ is_ws c = false /\ Ascii.eqb c "]"%char = false.
Proof.
  destruct v as [| |[|]|[m e| |[|]]|s|b|l|ps|f|m]; try discriminate;
    intros _ E; cbn [to_json] in E; injection E as <-;
    try (eexists _, _; repeat split; reflexivity).
  destruct (format_number_head m e) as [c [t [E Hc]]].
  unfold format_number in E. rewrite E.
  exists c, t. split; [reflexivity | now apply digit_not_space].
Qed.

Lemma element_json_some (v : value) (pv : text) :
  to_json v = Some pv -> element_json v = pv.
Proof. unfold element_json. now intros ->. Qed.

Lemma read_elements_back (l : list value) :
  Forall reads_back l ->
  forallb json_value l = true ->
  l <> [] ->
  forall (acc : list value) (fuel : nat) (rest : text),
    (2 * length (comma_join (map element_json l)) + 1 < fuel)%nat ->
    read_elements fuel (comma_join (map element_json l) ++ "]"%char :: rest) acc =
    Some (Arr (acc ++ l), rest).
Proof.
  induction 1 as [|x l Hx Hl IH]; intros Hj Hne acc fuel rest Hfuel; [congruence|].
  cbn [forallb] in Hj. apply andb_true_iff in Hj as [Hjx Hjl].
  destruct (json_value_some x Hjx) as [tx Htx].
  cbn [map] in Hfuel |- *.
  rewrite (element_json_some x tx Htx) in Hfuel |- *.
  destruct fuel as [|f]; [lia|].
  destruct l as [|y l].
  - cbn [map comma_join join_text] in *.
    apply read_elements_last. apply Hx; [assumption | assumption | lia | reflexivity].
  - cbn [map] in *. unfold comma_join in *. rewrite join_text_cons in *.
    rewrite !length_app in Hfuel. cbn [length] in Hfuel.
    rewrite <- !app_assoc. cbn [app].
    erewrite read_elements_more.
    2: { apply Hx; [assumption | assumption | lia | reflexivity]. }
    rewrite IH; [| assumption | discriminate | lia].
    now rewrite <- app_assoc.
Qed.

Lemma read_members_back (ps : list (string * value)) :
  Forall (fun p => reads_back (snd p)) ps ->
  forallb (fun p => json_value (snd p)) ps = true ->
  ps <> [] ->
  forall (acc : list (string * value)) (fuel : nat) (rest : text),
    NoDup (map fst (acc ++ ps)) ->
    (2 * length (comma_join (map member_json ps)) + 1 < fuel)%nat ->
    read_members fuel (comma_join (map member_json ps) ++ "}"%char :: rest) acc =
    Some (Obj (acc ++ ps), rest).
Proof.
  induction 1 as [|[k x] ps Hx Hps IH]; intros Hj Hne acc fuel rest Hnd Hfuel;
    [congruence|].
  cbn [forallb snd] in Hj. apply andb_true_iff in Hj as [Hjx Hjps].
  cbn [snd] in Hx.
  destruct (json_value_some x Hjx) as [tx Htx].
  assert (Hk : k ∉ map fst acc).
  { rewrite map_app in Hnd. apply NoDup_app in Hnd as (_ & Hd & _).
    intros Hin. apply (Hd k Hin). cbn [map fst]. apply elem_of_cons. now left. }
  assert (Hm : member_json (k, x) = quote k ++ ":"%char :: tx).
  { unfold member_json. cbn [fst snd]. now rewrite (element_json_some x tx Htx). }
  destruct fuel as [|f]; [lia|].
  destruct ps as [|q ps].
  - cbn [map comma_join join_text] in *. rewrite Hm in *.
    rewrite length_app in Hfuel. cbn [length] in Hfuel.
    rewrite <- app_assoc. cbn [app].
    erewrite read_members_last.
    2: { apply Hx; [assumption | assumption | lia | reflexivity]. }
    now rewrite set_prop_fresh.
  - cbn [map] in *. unfold comma_join in *. rewrite join_text_cons in *.
    rewrite Hm in *.
    rewrite ?length_app in Hfuel. cbn [length] in Hfuel.
    rewrite ?length_app in Hfuel. cbn [length] in Hfuel.
    rewrite <- ?app_assoc. cbn [app]. rewrite <- ?app_assoc. cbn [app].
    erewrite read_members_more.
    2: { apply Hx; [assumption | assumption | lia | reflexivity]. }
    rewrite set_prop_fresh by assumption.
    rewrite IH; [| assumption | discriminate | | lia].
    + now rewrite <- app_assoc.
    + now rewrite <- app_assoc.
Qed.

(** Every JSON value is read back from its text. *)
Lemma read_value_back (v : value) : reads_back v.
Proof.
  induction v as [| |b|n|s|b|l IH|ps IH|f|m] using value_ind;
    intros Hj pv fuel rest Hpv Hfuel Hrest; try discriminate Hj.
  - injection Hpv as <-. destruct fuel; [lia | reflexivity].
  - destruct fuel; [simpl in Hfuel; lia|].
    destruct b; injection Hpv as <-; reflexivity.
  - destruct n as [m e| |[|]]; try discriminate Hj.
    assert (pv = format_number (Dec m e)) as ->
      by (cbn [to_json] in Hpv; congruence).
    destruct fuel as [|f]; [lia|].
    destruct (format_number_head m e) as [c [t [E Hc]]].
    rewrite E. cbn [app]. rewrite read_value_number by assumption.
    change (c :: t ++ rest) with ((c :: t) ++ rest). rewrite <- E.
    now rewrite read_number_format.
  - cbn [to_json] in Hpv. injection Hpv as <-.
    destruct fuel as [|f]; [lia|].
    unfold quote. cbn [app]. rewrite read_value_string.
    rewrite <- app_assoc. cbn [app]. rewrite read_string_quoted.
    now rewrite str_chars.
  - rewrite to_json_array in Hpv. injection Hpv as <-.
    cbn [json_value] in Hj.
    destruct fuel as [|f]; [lia|].
    destruct l as [|x l]; [reflexivity|].
    cbn [length] in Hfuel. rewrite length_app in Hfuel. cbn [length] in Hfuel.
    assert (Hjx : json_value x = true)
      by (cbn [forallb] in Hj; now apply andb_true_iff in Hj).
    destruct (json_value_some x Hjx) as [tx Htx].
    destruct (value_head x tx Hjx Htx) as [c [t [Et [Hw Hc]]]].
    cbn [app]. rewrite <- app_assoc. cbn [app].
    assert (Eh : exists t', comma_join (map element_json (x :: l)) = c :: t').
    { cbn [map]. rewrite (element_json_some x tx Htx), Et.
      destruct l; eexists; reflexivity. }
    destruct Eh as [t' Eh]. rewrite Eh. cbn [app].
    rewrite read_value_array by assumption.
    change (c :: t' ++ "]"%char :: rest) with ((c :: t') ++ "]"%char :: rest).
    rewrite <- Eh.
    rewrite read_elements_back; [reflexivity | assumption | assumption | discriminate | lia].
  - cbn [json_value] in Hj. apply andb_true_iff in Hj as [Hnd Hj].
    apply bool_decide_eq_true in Hnd.
    rewrite to_json_object in Hpv by assumption. injection Hpv as <-.
    destruct fuel as [|f]; [lia|].
    destruct ps as [|[k x] ps]; [reflexivity|].
    cbn [length] in Hfuel. rewrite length_app in Hfuel. cbn [length] in Hfuel.
    cbn [app]. rewrite <- app_assoc. cbn [app].
    assert (Eh : exists t', comma_join (map member_json ((k, x) :: ps)) = quote_char :: t').
    { cbn [map]. unfold member_json at 1, quote. destruct ps; eexists; reflexivity. }
    destruct Eh as [t' Eh]. rewrite Eh. cbn [app].
    rewrite read_value_object.
    change (quote_char :: t' ++ "}"%char :: rest)
      with ((quote_char :: t') ++ "}"%char :: rest).
    rewrite <- Eh.
    rewrite read_members_back; [reflexivity | assumption | assumption | discriminate | assumption | lia].
Qed.

(** ** The codec round trip *)

Lemma JSON_parse_to_json (v : value) (pv : text) :
  json_value v = true -> to_json v = Some pv -> JSON_parse (str pv) = Some v.
Proof.
  intros Hj Hpv. unfold JSON_parse. rewrite chars_str.
  rewrite <- (app_nil_r pv) at 2.
  rewrite (read_value_back v Hj pv _ [] Hpv); [reflexivity | lia | reflexivity].
Qed.

(** C2, as amended: with cast-mode enabled, a value that JSON text
    represents and that is not itself a string is encoded to JSON text
    from which decoding returns it; undefined is encoded to undefined and
    decoded to undefined. *)
Theorem parse_stringify_roundtrip (st : store) (v : value) :
  autoCast st = true ->
  json_value v = true \/ v = Undefined ->
  String.eqb (typeof v) "string" = false ->
  _parse st (_stringify st v) = v /\
  (json_value v = true ->
   exists t, _stringify st v = Str t /\ JSON_parse t = Some v).
Proof.
  intros Hcast Hv Hs.
  assert (Hjson : json_value v = true ->
            exists t, _stringify st v = Str t /\ JSON_parse t = Some v).
  { intros Hj. destruct (json_value_some v Hj) as [pv Hpv].
    exists (str pv). split; [|now apply JSON_parse_to_json].
    unfold _stringify, JSON_stringify. rewrite Hcast, Hs, Hpv.
    now destruct v. }
  split; [|exact Hjson].
  destruct Hv as [Hj| ->].
  - destruct (Hjson Hj) as [t [-> Ht]].
    unfold _parse, convertValue. cbn. now rewrite Hcast, Ht.
  - unfold _parse, _stringify. now rewrite Hcast.
Qed.

Lemma parse_stringify_roundtrip_witness :
  let st := RedisStore no_options in
  let v := Obj [("xray", Num (of_Z 13)); ("list", Arr [Null; Bool true; Str "a"])] in
  _parse st (_stringify st v) = v /\
  (json_value v = true ->
   exists t, _stringify st v = Str t /\ JSON_parse t = Some v).
Proof.
  intros st v. apply (parse_stringify_roundtrip st v).
  - reflexivity.
  - left. vm_compute. reflexivity.
  - reflexivity.
Defined.

(** C2 as stated fails: the number Infinity is encoded to the text [null],
    which decodes to null. *)
Lemma parse_stringify_refuted :
  ~ (forall (st : store) (v : value),
        autoCast st = true ->
        Buffer_isBuffer v = false ->
        String.eqb (typeof v) "string" = false ->
        _parse st (_stringify st v) = v).
Proof.
  intros H.
  specialize (H (RedisStore no_options) (Num (Inf false)) eq_refl eq_refl eq_refl).
  vm_compute in H. discriminate H.
Qed.

(** ** Names returned by keys and fields *)




(** ** Reading with cast-mode disabled *)

(** No reply handler consults the store: the cast flag they pass is the
    undefined [_autoCast]. *)
Lemma reply_any_store (st st' : store) (h : handler) (err data : value) :
  reply st h err data = reply st' h err data.
Proof. reflexivity. Qed.

(** C3 (defect): on a store built with cast-mode disabled, every shape of
    read delivers the stored text ["13"] as the number 13, while [_parse]
    of the same store leaves it a string. *)
Theorem get_parses_without_autoCast :
  let st := RedisStore {| opt_delimiter := Undefined; opt_autoCast := Bool false |} in
  autoCast st = false /\
  _parse st (Str "13") = Str "13" /\
  get st [Str "icao"; Str "xray"; callback] =
    (ReturnThis, [Issue (hmget (Str "icao") [Str "xray"])
                    (OnHmget callback [Str "xray"] (Bool false))]) /\
  reply st (OnHmget callback [Str "xray"] (Bool false)) Null (Arr [Str "13"]) =
    [Invoke callback [Null; Num (of_Z 13)]] /\
  get st [Str "icao"; Str "xray"; Str "alpha"; callback] =
    (ReturnThis, [Issue (hmget (Str "icao") [Str "xray"; Str "alpha"])
                    (OnHmget callback [Str "xray"; Str "alpha"] (Bool false))]) /\
  reply st (OnHmget callback [Str "xray"; Str "alpha"] (Bool false)) Null
    (Arr [Str "13"; Str "dot dash"]) =
    [Invoke callback [Null; Obj [("xray", Num (of_Z 13)); ("alpha", Str "dot dash")]]] /\
  get st [Str "icao"; callback] =
    (ReturnThis, [Issue (hgetall (Str "icao")) (OnHgetall callback (Bool false))]) /\
  reply st (OnHgetall callback (Bool false)) Null
    (Obj [("xray", Str "13"); ("alpha", Str "dot dash")]) =
    [Invoke callback [Null; Obj [("xray", Num (of_Z 13)); ("alpha", Str "dot dash")]]] /\
  (forall st' h err data, reply st' h err data = reply st h err data).
Proof. repeat split; vm_compute; reflexivity. Qed.

(** ** Engine errors *)

(** C5 (defect): the handler of [exists] calls back with null in the error
    position whatever error the engine reports; the other handlers hand
    the engine's error on. *)
Theorem exists_drops_engine_error (st : store) (f : string) (err data : value) :
  exists_ st (Str "icao") (Str "bravo") (Fun f) =
    (ReturnThis, [Issue (hexists (Str "icao") (Str "bravo")) (OnHexists (Fun f))]) /\
  map first_argument (reply st (OnHexists (Fun f)) err data) = [Null] /\
  reply st (OnHexists (Fun f)) (Err "Connection lost") Undefined =
    [Invoke (Fun f) [Null; Bool false]] /\
  (forall args asBuffer,
      map first_argument (reply st (Direct (Fun f)) err data) = [err] /\
      map first_argument (reply st (OnHgetall (Fun f) asBuffer) err data) = [err] /\
      map first_argument (reply st (OnHmget (Fun f) args asBuffer) err data) = [err] /\
      map first_argument (reply st (OnKeys (Fun f)) err data) = [err] /\
      map first_argument (reply st (OnHkeys (Fun f)) err data) = [err] /\
      map first_argument (reply st (OnHdel (Fun f)) err data) = [err]).
Proof. repeat split; reflexivity. Qed.

(** ** What the operations return *)

Ltac split_lets :=
  repeat match goal with
    | |- context [let '(_, _) := ?x in _] => destruct x
    | |- context [match ?x with (_, _) => _ end] => destruct x
    end.

Lemma get_returns (st : store) (arguments : list value) :
  fst (get st arguments) = ReturnThis \/ fst (get st arguments) = Throws.
Proof.
  unfold get. split_lets.
  repeat match goal with
    | |- context [if ?b then _ else _] => destruct b
    | |- context [match ?x with _ => _ end] => destruct x
    end; cbn; auto.
Qed.

(** C8 (defect): [exists] and [fields] return what the callback returns,
    not the store, when the key is invalid and a callback is given; the
    other operations return the store (a read asked for raw bytes under a
    numeric key throws). *)
Theorem operations_return (st : store) (h : heap) (key field pattern cb : value)
  (f : string) (arguments : list value) (args : list arg) :
  fst (exists_ st key field (Fun f)) =
    (if truthy (cacheKey st key) then ReturnThis
     else ReturnCall (Fun f) [Err "Invalid key"]) /\
  fst (fields st key (Fun f)) =
    (if truthy (cacheKey st key) then ReturnThis
     else ReturnCall (Fun f) [Err "Invalid key"]) /\
  exists_ st (Str "") (Str "bravo") (Fun f) =
    (ReturnCall (Fun f) [Err "Invalid key"], [Invoke (Fun f) [Err "Invalid key"]]) /\
  fields st Null (Fun f) =
    (ReturnCall (Fun f) [Err "Invalid key"], [Invoke (Fun f) [Err "Invalid key"]]) /\
  (fst (get st arguments) = ReturnThis \/ fst (get st arguments) = Throws) /\
  snd (fst (set st h args)) = ReturnThis /\
  fst (keys st pattern cb) = ReturnThis /\
  fst (del st arguments) = ReturnThis /\
  fst (flush st arguments) = ReturnThis.
Proof.
  repeat split; try reflexivity.
  - unfold exists_. cbn [is_function negb]. now destruct (truthy (cacheKey st key)).
  - unfold fields. cbn [is_function negb]. now destruct (truthy (cacheKey st key)).
  - apply get_returns.
  - unfold set. split_lets.
    repeat match goal with
      | |- context [if ?b then _ else _] => destruct b
      | |- context [match ?x with _ => _ end] => destruct x
      end; reflexivity.
  - unfold keys.
    repeat match goal with
      | |- context [if ?b then _ else _] => destruct b
      end; reflexivity.
  - unfold del. split_lets.
    repeat match goal with
      | |- context [if ?b then _ else _] => destruct b
      | |- context [match ?x with _ => _ end] => destruct x
      end; reflexivity.
  - unfold flush.
    repeat match goal with
      | |- context [if ?b then _ else _] => destruct b
      | |- context [match ?x with _ => _ end] => destruct x
      end; reflexivity.
Qed.

(** ** A write with a single field name *)

(** C4 (defect): a write whose data is one string, a field name without a
    value, is not rejected: the multi-set command is issued with undefined
    data, and this layer reports no error. *)
Theorem set_single_field_not_rejected (st : store) (h : heap) (c : ascii)
  (k field f : string) :
  set st h [Imm (Str (String c k)); Imm (Str field); Imm (Fun f)] =
    (h, ReturnThis,
     [Issue (hmset (Str (String c k)) (Imm Undefined)) (Direct (Fun f))]) /\
  set st h [Imm (Str (String c k)); Imm (Arr [Str field]); Imm (Fun f)] =
    (h, ReturnThis,
     [Issue (hmset (Str (String c k)) (Imm Undefined)) (Direct (Fun f))]) /\
  set st h [Imm (Str (String c k)); Imm (Arr []); Imm (Fun f)] =
    (h, ReturnThis, [Invoke (Fun f) [Err "Invalid data"; Num (Dec 0 0)]]) /\
  set st h [Imm (Str (String c k)); Imm (Fun f)] =
    (h, ReturnThis, [Invoke (Fun f) [Err "Invalid data"; Num (Dec 0 0)]]).
Proof. repeat split; reflexivity. Qed.

(** ** A write with a field map *)

Lemma load_at (h : heap) (l : loc) (p : list nat) (v : value) :
  h !! l = Some v -> load h (At l p) = follow v p.
Proof. intros H. unfold load. now rewrite H. Qed.

Lemma store_at_at (h : heap) (l : loc) (p : list nat) (v new : value) :
  h !! l = Some v -> store_at h (At l p) new = <[l := replace_at v p new]> h.
Proof. intros H. unfold store_at. now rewrite H. Qed.









(** ** A write with field/value pairs *)



Lemma has_prop_spec (ps : list (string * value)) (k : string) :
  has_prop ps k = true <-> k ∈ map fst ps.
Proof.
  unfold has_prop. induction ps as [|[k' x] ps IH]; cbn [existsb map fst].
  - split; [discriminate | intros H; inversion H].
  - rewrite orb_true_iff, IH, elem_of_cons.
    destruct (String.eqb_spec k' k); intuition congruence.
Qed.

Lemma has_prop_fresh (ps : list (string * value)) (k : string) :
  k ∉ map fst ps -> has_prop ps k = false.
Proof.
  intros H. destruct (has_prop ps k) eqn:E; [|reflexivity].
  now apply has_prop_spec in E.
Qed.




(** A new property listed at its place. *)
Lemma insert_index_names (n : N) (p : string * value) (ps : list (string * value)) :
  map fst (insert_index n p ps) ≡ₚ fst p :: map fst ps.
Proof.
  induction ps as [|q ps IH]; cbn [insert_index map]; [reflexivity|].
  destruct (array_index (fst q)) as [m|]; [|reflexivity].
  destruct (m <? n)%N; [|reflexivity].
  cbn [map]. rewrite IH. apply Permutation_swap.
Qed.

Lemma has_prop_insert_index (n : N) (p : string * value) (ps : list (string * value))
  (k' : string) :
  has_prop (insert_index n p ps) k' = String.eqb (fst p) k' || has_prop ps k'.
Proof.
  unfold has_prop. induction ps as [|q ps IH]; cbn [insert_index existsb]; [reflexivity|].
  destruct (array_index (fst q)) as [m|]; [|reflexivity].
  destruct (m <? n)%N; [|reflexivity].
  cbn [existsb]. rewrite IH.
  destruct (String.eqb (fst q) k'), (String.eqb (fst p) k'); reflexivity.
Qed.

Lemma get_prop_insert_index (n : N) (k : string) (v : value)
  (ps : list (string * value)) (k' : string) :
  has_prop ps k = false ->
  get_prop (insert_index n (k, v) ps) k' = if String.eqb k k' then v else get_prop ps k'.
Proof.
  unfold has_prop.
  induction ps as [|[k0 x] ps IH]; cbn [insert_index get_prop existsb fst]; [reflexivity|].
  intros H. apply orb_false_iff in H as [H0 H].
  destruct (array_index k0) as [m|]; [|reflexivity].
  destruct (m <? n)%N; [|reflexivity].
  cbn [get_prop]. rewrite (IH H).
  destruct (String.eqb_spec k0 k') as [->|]; [|reflexivity].
  now rewrite (String.eqb_sym k k'), H0.
Qed.

Lemma get_prop_snoc (k : string) (v : value) (ps : list (string * value)) (k' : string) :
  has_prop ps k = false ->
  get_prop (ps ++ [(k, v)]) k' = if String.eqb k k' then v else get_prop ps k'.
Proof.
  unfold has_prop.
  induction ps as [|[k0 x] ps IH]; cbn [app get_prop existsb fst]; [reflexivity|].
  intros H. apply orb_false_iff in H as [H0 H]. rewrite (IH H).
  destruct (String.eqb_spec k0 k') as [->|]; [|reflexivity].
  now rewrite (String.eqb_sym k k'), H0.
Qed.

Lemma has_prop_add_prop (ps : list (string * value)) (k k' : string) (v : value) :
  has_prop (add_prop ps k v) k' = String.eqb k k' || has_prop ps k'.
Proof.
  unfold add_prop. destruct (array_index k) as [n|].
  - apply (has_prop_insert_index n (k, v)).
  - unfold has_prop. rewrite existsb_app. cbn [existsb fst].
    now destruct (existsb _ ps), (String.eqb k k').
Qed.

Lemma get_prop_add_prop (ps : list (string * value)) (k k' : string) (v : value) :
  has_prop ps k = false ->
  get_prop (add_prop ps k v) k' = if String.eqb k k' then v else get_prop ps k'.
Proof.
  intros H. unfold add_prop. destruct (array_index k) as [n|].
  - now apply get_prop_insert_index.
  - now apply get_prop_snoc.
Qed.

Lemma add_prop_names (ps : list (string * value)) (k : string) (v : value) :
  map fst (add_prop ps k v) ≡ₚ k :: map fst ps.
Proof.
  unfold add_prop. destruct (array_index k) as [n|].
  - apply (insert_index_names n (k, v)).
  - rewrite map_app. cbn [map fst]. symmetry. apply Permutation_cons_append.
Qed.








Lemma pop_snoc {A} (d x : A) (l : list A) : pop d (l ++ [x]) = (x, l).
Proof. unfold pop. now rewrite List.last_last, removelast_last. Qed.

Lemma load_map_Imm (h : heap) (vs : list value) : map (load h) (map Imm vs) = vs.
Proof. rewrite map_map. cbn [load]. apply map_id. Qed.





Example test_assign_order :
  assign_all [("bravo", Null); ("2", Null); ("__proto__", Str "x"); ("1", Null);
              ("bravo", Bool true)] =
  [("1", Null); ("2", Null); ("bravo", Bool true)].
Proof. reflexivity. Qed.


(** ** Calls without a callback *)

Ltac break_ifs :=
  repeat match goal with
    | |- context [if ?b then _ else _] => destruct b eqn:?
    | |- context [match ?x with _ => _ end] => destruct x eqn:?
    end.

(** A write whose last argument is not a function: the argument counts
    as data when truthy, and the command goes out exactly when the key is
    valid and something is left as data. *)
Lemma set_without_callback (st : store) (h : heap) (k last : arg) (rest : list arg) :
  is_function (load h last) = false ->
  let args := if truthy (load h last) then rest ++ [last] else rest in
  (truthy (cacheKey st (load h k)) = true -> unwrap h args <> [] ->
   exists h' data,
     set st h (k :: rest ++ [last]) =
       (h', ReturnThis, [Issue (hmset (cacheKey st (load h k)) data) (Direct noop)])) /\
  (truthy (cacheKey st (load h k)) = false \/ unwrap h args = [] ->
   set st h (k :: rest ++ [last]) = (h, ReturnThis, [])).
Proof.
  intros Hcb args. unfold set. rewrite app_comm_cons, pop_snoc. cbn [shift hd tl].
  rewrite Hcb. cbn [negb]. rewrite andb_true_r. fold args.
  assert (E : (if truthy (load h last) then (Null, rest ++ [last])
               else (load h last, rest)) =
              (if truthy (load h last) then Null else load h last, args))
    by (unfold args; now destruct (truthy (load h last))).
  rewrite E. clear E.
  assert (Hf : is_function (if truthy (load h last) then Null else load h last) = false)
    by now destruct (truthy (load h last)).
  assert (Ht : truthy (if truthy (load h last) then Null else load h last) = false)
    by now destruct (truthy (load h last)) eqn:Et.
  rewrite Hf, Ht. split.
  - intros Hk Hne. rewrite Hk.
    destruct (unwrap h args) as [|a0 r0]; [contradiction|]. cbv zeta.
    match goal with
    | |- context [let '(_, _) := ?x in _] => destruct x as [h' data]
    end.
    now exists h', data.
  - intros [Hk|He]; [now rewrite Hk|].
    rewrite He. now destruct (truthy (cacheKey st (load h k))).
Qed.

Lemma del_without_callback (st : store) (k last : value) (rest : list value) :
  is_function last = false ->
  del st (k :: rest ++ [last]) =
    (ReturnThis,
     if truthy (cacheKey st k)
     then [Issue (hdel (cacheKey st k ::
                        match rest ++ [last] with [Arr l] => l | _ => rest ++ [last] end))
             (OnHdel Null)]
     else []).
Proof.
  intros Hcb. unfold del. rewrite app_comm_cons, pop_snoc. cbn [shift hd tl].
  rewrite Hcb. cbn [negb is_function]. now destruct (truthy (cacheKey st k)).
Qed.

Lemma flush_without_callback (st : store) (ks : list value) (last : value) :
  is_function last = false ->
  let args := if Array_isArray last then ks ++ [last] else ks in
  let keys := match args with [Arr l] => l | _ => args end in
  flush st (ks ++ [last]) =
    (ReturnThis,
     match keys with
     | [] => []
     | _ => [Issue (client_del (map (cacheKey st) keys))
               (Direct (if truthy last && negb (Array_isArray last) then last else noop))]
     end).
Proof.
  intros Hcb args keys. unfold flush.
  assert (E : match ks ++ [last] with
              | [] => (Undefined, ks ++ [last])
              | _ :: _ =>
                  if negb (Array_isArray (List.last (ks ++ [last]) Undefined))
                  then pop Undefined (ks ++ [last]) else (Undefined, ks ++ [last])
              end = (if Array_isArray last then Undefined else last, args)).
  { rewrite List.last_last, pop_snoc. unfold args.
    destruct (Array_isArray last); now destruct ks. }
  rewrite E. fold keys. destruct (Array_isArray last) eqn:Ea; cbn [negb andb].
  - rewrite andb_false_r. now destruct keys.
  - rewrite andb_true_r, Hcb. now destruct keys.
Qed.

(** C6, as amended.  Without a callable in the callback position a read
    does nothing and returns the store, and so do [keys], [exists] and
    [fields] when no argument is callable.  A write and a delete take the
    callback as optional.  They return the store and call nobody back,
    now or on the engine's reply; the last argument is data, for a delete
    always and for a write when it is truthy.  With a valid key a delete
    always issues its command, and a write does so exactly when an
    argument remains after one array unwrapping; otherwise nothing is
    done.  A bulk clear takes a last argument that is not an array for
    the callback, callable or not, and issues its command whenever a key
    remains. *)
Theorem no_callback_behaviour (st : store) :
  (forall arguments,
      is_function (List.last arguments Undefined) = false ->
      get st arguments = (ReturnThis, [])) /\
  (forall h k last rest,
      is_function (load h last) = false ->
      let args := if truthy (load h last) then rest ++ [last] else rest in
      (truthy (cacheKey st (load h k)) = true -> unwrap h args <> [] ->
       exists h' data,
         set st h (k :: rest ++ [last]) =
           (h', ReturnThis, [Issue (hmset (cacheKey st (load h k)) data) (Direct noop)])) /\
      (truthy (cacheKey st (load h k)) = false \/ unwrap h args = [] ->
       set st h (k :: rest ++ [last]) = (h, ReturnThis, []))) /\
  (forall h x,
      is_function (load h x) = false ->
      set st h [x] = (h, ReturnThis, []) /\ set st h [] = (h, ReturnThis, [])) /\
  (forall k last rest,
      is_function last = false ->
      del st (k :: rest ++ [last]) =
        (ReturnThis,
         if truthy (cacheKey st k)
         then [Issue (hdel (cacheKey st k ::
                            match rest ++ [last] with [Arr l] => l | _ => rest ++ [last] end))
                 (OnHdel Null)]
         else [])) /\
  (forall x,
      is_function x = false ->
      del st [x] = (ReturnThis, []) /\ del st [] = (ReturnThis, [])) /\
  (forall err data, reply st (OnHdel Null) err data = []) /\
  (forall ks last,
      is_function last = false ->
      let args := if Array_isArray last then ks ++ [last] else ks in
      let keys := match args with [Arr l] => l | _ => args end in
      flush st (ks ++ [last]) =
        (ReturnThis,
         match keys with
         | [] => []
         | _ => [Issue (client_del (map (cacheKey st) keys))
                   (Direct (if truthy last && negb (Array_isArray last)
                            then last else noop))]
         end)) /\
  flush st [] = (ReturnThis, []) /\
  (forall pattern cb,
      is_function pattern = false -> is_function cb = false ->
      keys st pattern cb = (ReturnThis, [])) /\
  (forall key field cb,
      is_function key = false -> is_function field = false ->
      is_function cb = false ->
      exists_ st key field cb = (ReturnThis, []) /\
      fields st key cb = (ReturnThis, [])).
Proof.
  split; [|split; [|split; [|split; [|split; [|split; [|split; [|split; [|split]]]]]]]].
  - intros arguments Hcb. unfold get, pop. cbn [shift]. now rewrite Hcb.
  - intros h k last rest. apply set_without_callback.
  - intros h x Hx. split; [|reflexivity].
    unfold set. cbn [pop shift List.last removelast hd tl load cacheKey typeof truthy
                     String.eqb Ascii.eqb Bool.eqb andb orb].
    rewrite Hx. destruct (truthy (load h x)); cbn [andb negb]; [reflexivity|].
    now rewrite Hx.
  - intros k last rest. apply del_without_callback.
  - intros x Hx. split; [|reflexivity].
    unfold del. cbn [pop shift List.last removelast hd tl]. now rewrite Hx.
  - reflexivity.
  - intros ks last. apply flush_without_callback.
  - reflexivity.
  - intros pattern cb Hp Hc. unfold keys. now rewrite Hp, Hc.
  - intros key field cb Hk Hf Hc. split.
    + unfold exists_. now rewrite Hk, Hf, Hc.
    + unfold fields. now rewrite Hk, Hc.
Qed.

Lemma no_callback_behaviour_witness :
  (exists h' data,
      set (RedisStore no_options) ∅
          [Imm (Str "icao"); Imm (Str "alpha"); Imm (Str "dot dash")] =
        (h', ReturnThis, [Issue (hmset (Str "icao") data) (Direct noop)])) /\
  set (RedisStore no_options) ∅ [Imm (Str "icao"); Imm (Str "")] = (∅, ReturnThis, []) /\
  del (RedisStore no_options) [Str "icao"; Str "alpha"] =
    (ReturnThis, [Issue (hdel [Str "icao"; Str "alpha"]) (OnHdel Null)]).
Proof.
  destruct (no_callback_behaviour (RedisStore no_options))
    as (_ & Hset & _ & Hdel & _).
  split; [|split].
  - apply (proj1 (Hset ∅ (Imm (Str "icao")) (Imm (Str "dot dash")) [Imm (Str "alpha")]
                    eq_refl)); [reflexivity | discriminate].
  - apply (proj2 (Hset ∅ (Imm (Str "icao")) (Imm (Str "")) [] eq_refl)).
    now right.
  - apply (Hdel (Str "icao") (Str "alpha") [] eq_refl).
Defined.

(** C6 as stated fails: a write without a callback is not a no-op, its
    command reaches the engine. *)
Lemma no_callback_noop_refuted :
  ~ (forall (st : store) (h : heap) (arguments : list arg),
        is_function (load h (List.last arguments (Imm Undefined))) = false ->
        set st h arguments = (h, ReturnThis, [])).
Proof.
  intros H.
  specialize (H (RedisStore no_options) ∅
                [Imm (Str "icao"); Imm (Str "alpha"); Imm (Str "dot dash")] eq_refl).
  discriminate H.
Qed.

(** * Further properties of the store *)

(** ** Keys *)

(** X1: a key the operations accept is a fixed point of the composer: the
    composed key can be handed back as a key and denotes itself. *)
Theorem cacheKey_fixed_point (st : store) (k : value) :
  truthy (cacheKey st k) = true ->
  cacheKey st (cacheKey st k) = cacheKey st k.
Proof.
  destruct k as [| |b|n|s|b|l|ps|f|m]; try discriminate; try reflexivity.
  - destruct s; [discriminate | reflexivity].
  - destruct l as [|x r]; [discriminate|]. cbn [cacheKey].
    destruct (Array_join (x :: r) (delimiter st)); [discriminate | reflexivity].
Qed.

Lemma cacheKey_fixed_point_witness :
  let st := RedisStore no_options in
  cacheKey st (cacheKey st (Arr [Str "icao"; Str "more"])) =
  cacheKey st (Arr [Str "icao"; Str "more"]).
Proof. intros st. apply cacheKey_fixed_point. reflexivity. Defined.

Lemma join_text_app (sep : text) (a b : list text) :
  a <> [] -> b <> [] ->
  join_text sep (a ++ b) = join_text sep a ++ sep ++ join_text sep b.
Proof.
  intros Ha Hb. induction a as [|x a IH]; [congruence|].
  destruct a as [|y a].
  - destruct b; [congruence | reflexivity].
  - change ((x :: y :: a) ++ b) with (x :: (y :: a) ++ b).
    cbn [app]. rewrite !join_text_cons.
    change (y :: a ++ b) with ((y :: a) ++ b). rewrite IH by discriminate.
    now rewrite <- !app_assoc.
Qed.

(** X2: keys nest.  A key composed from a composed prefix and further
    segments is the key composed from all the segments at once. *)
Theorem cacheKey_prefix (st : store) (x : value) (prefix more : list value) :
  cacheKey st (Arr (cacheKey st (Arr (x :: prefix)) :: more)) =
  cacheKey st (Arr ((x :: prefix) ++ more)).
Proof.
  cbn [cacheKey app]. unfold Array_join. f_equal. f_equal.
  set (sep := match delimiter st with Undefined => [","%char] | _ => to_text (delimiter st) end).
  cbn [map element_text to_text]. rewrite chars_str.
  destruct more as [|y more].
  - now rewrite app_nil_r.
  - cbn [map]. rewrite (join_text_cons sep _ (element_text y)).
    change (element_text x :: map element_text (prefix ++ y :: more))
      with (map element_text ((x :: prefix) ++ y :: more)).
    rewrite map_app, join_text_app by discriminate. reflexivity.
Qed.

Lemma valid_key_shape (st : store) (k : value) :
  truthy (cacheKey st k) = true ->
  is_function k = false /\
  is_function (cacheKey st k) = false /\
  Array_isArray (cacheKey st k) = false /\
  (Array_isArray k = false -> cacheKey st k = k).
Proof.
  destruct k as [| |b|n|s|b|l|ps|f|m]; try discriminate; intros H;
    repeat split; try reflexivity; try discriminate.
  - now destruct s.
  - now destruct s.
  - now destruct s.
  - now destruct l.
  - now destruct l.
Qed.

(** X3: an array key and the string it composes to address the same
    record: every operation does with a valid key exactly what it does
    with the composed key. *)
Theorem composed_key_same_record (st : store) (h : heap) (k a field cb : value)
  (rest : list value) (b : arg) (more : list arg) :
  truthy (cacheKey st k) = true ->
  get st (k :: a :: rest) = get st (cacheKey st k :: a :: rest) /\
  del st (k :: a :: rest) = del st (cacheKey st k :: a :: rest) /\
  set st h (Imm k :: b :: more) = set st h (Imm (cacheKey st k) :: b :: more) /\
  exists_ st k field cb = exists_ st (cacheKey st k) field cb /\
  fields st k cb = fields st (cacheKey st k) cb /\
  keys st k cb = keys st (cacheKey st k) cb.
Proof.
  intros Hk.
  assert (Hfix : cacheKey st (cacheKey st k) = cacheKey st k).
  { revert Hk. clear.
    destruct k as [| |?|?|s|?|l|?|?|?]; try discriminate; try reflexivity.
    - destruct s; [discriminate | reflexivity].
    - destruct l as [|x r]; [discriminate|]. cbn [cacheKey].
      destruct (Array_join (x :: r) (delimiter st)); [discriminate | reflexivity]. }
  destruct (valid_key_shape st k Hk) as (Hf & Hf' & Ha' & Hsame).
  repeat split.
  - unfold get, pop. cbn [List.last removelast shift hd tl]. now rewrite Hfix.
  - unfold del, pop. cbn [List.last removelast shift hd tl]. now rewrite Hfix.
  - unfold set, pop. cbn [List.last removelast shift hd tl load]. now rewrite Hfix.
  - unfold exists_. now rewrite Hf, Hf', Hfix.
  - unfold fields. now rewrite Hf, Hf', Hfix.
  - unfold keys. rewrite Hf, Hf', Ha'.
    destruct (Array_isArray k) eqn:Ek; [reflexivity|]. now rewrite (Hsame eq_refl).
Qed.

Lemma composed_key_same_record_witness :
  let st := RedisStore no_options in
  get st [Arr [Str "icao"; Str "more"]; Str "charlie"; callback] =
  get st [Str "icao:more"; Str "charlie"; callback].
Proof.
  intros st.
  exact (proj1 (composed_key_same_record st ∅ (Arr [Str "icao"; Str "more"])
                  (Str "charlie") Undefined Undefined [callback]
                  (Imm Undefined) [] eq_refl)).
Defined.

(** ** The codec *)

(** X4: encoding is idempotent, so a value already encoded is sent as it
    is; and with cast-mode on the encoded value is always text, a raw
    Buffer or undefined. *)
Theorem stringify_idempotent (st : store) (v : value) :
  _stringify st (_stringify st v) = _stringify st v /\
  (autoCast st = true ->
   match _stringify st v with
   | Str _ | Buf _ | Undefined => True
   | _ => False
   end).
Proof.
  unfold _stringify, JSON_stringify.
  destruct (autoCast st); cbn [negb orb]; [|split; [reflexivity | discriminate]].
  destruct (Buffer_isBuffer v) eqn:Eb; cbn [orb].
  - rewrite Eb. split; [reflexivity|]. now destruct v.
  - destruct (String.eqb (typeof v) "string") eqn:Es.
    + rewrite Eb, Es. split; [reflexivity|]. now destruct v.
    + destruct (to_json v); split; try reflexivity; intros _; exact I.
Qed.

Lemma stringify_idempotent_witness :
  match _stringify (RedisStore no_options) (Obj [("xray", Num (of_Z 13))]) with
  | Str _ | Buf _ | Undefined => True
  | _ => False
  end.
Proof.
  apply (proj2 (stringify_idempotent (RedisStore no_options)
                  (Obj [("xray", Num (of_Z 13))]))).
  reflexivity.
Defined.

(** ** Callbacks and commands *)






(** X6: whatever its arguments, a read, a write, a delete, a bulk clear
    or a key search does at most one thing: it issues one command or
    calls back once, never both.  [exists] is the exception: given a
    function as field and a callback after it, it reports "Invalid
    field" to the former and still asks the engine. *)
Theorem one_event_at_most (st : store) (h : heap) (arguments : list value)
  (args : list arg) (pattern cb : value) (c : ascii) (k f g : string) :
  (length (snd (get st arguments)) <= 1)%nat /\
  (length (snd (set st h args)) <= 1)%nat /\
  (length (snd (del st arguments)) <= 1)%nat /\
  (length (snd (flush st arguments)) <= 1)%nat /\
  (length (snd (keys st pattern cb)) <= 1)%nat /\
  exists_ st (Str (String c k)) (Fun f) (Fun g) =
    (ReturnThis,
     [Invoke (Fun f) [Err "Invalid field"];
      Issue (hexists (Str (String c k)) (Fun f)) (OnHexists (Fun g))]).
Proof.
  repeat split.
  - unfold get. split_lets. break_ifs; cbn; lia.
  - unfold set. split_lets. break_ifs; cbn; lia.
  - unfold del. split_lets. break_ifs; cbn; lia.
  - unfold flush. break_ifs; cbn; lia.
  - unfold keys. break_ifs; cbn; lia.
Qed.

(** ** Call shapes *)




(** X8: in a read, an explicit [false] after the key is the default: it
    asks for decoded values and is otherwise ignored, as long as the
    fields that follow are given one by one and do not begin with a
    boolean. *)
Theorem get_false_flag (st : store) (k cb : value) (l : list value) :
  not_one_array l = true ->
  is_boolean (hd Undefined l) = false ->
  get st (k :: Bool false :: l ++ [cb]) = get st (k :: l ++ [cb]).
Proof.
  intros Hl Hb. unfold get.
  rewrite (app_comm_cons l [cb] k), pop_snoc.
  change (k :: Bool false :: l ++ [cb]) with ((k :: Bool false :: l) ++ [cb]).
  rewrite pop_snoc. cbn [shift hd tl].
  destruct (negb (is_function cb)); [reflexivity|].
  destruct (truthy (cacheKey st k)); [|reflexivity].
  destruct l as [|x l]; [reflexivity|]. cbn [hd] in Hb.
  assert (Hx : is_true x = false /\ is_false x = false) by (destruct x as [| |[]| | | | | | |]; now try discriminate).
  destruct Hx as [Ht Hf].
  replace (match x :: l with [Arr l0] => l0 | _ => x :: l end) with (x :: l)
    by (destruct x, l; try reflexivity; discriminate).
  cbn [length Nat.eqb negb andb orb hd tl is_true is_false]. rewrite Ht, Hf.
  destruct l; reflexivity.
Qed.

Lemma get_false_flag_witness :
  let st := RedisStore no_options in
  get st [Str "icao"; Bool false; Str "xray"; callback] =
  get st [Str "icao"; Str "xray"; callback].
Proof.
  intros st. apply (get_false_flag st (Str "icao") callback [Str "xray"]); reflexivity.
Defined.

(** ** Replies of a read *)

Lemma has_prop_app (a b : list (string * value)) (k : string) :
  has_prop (a ++ b) k = has_prop a k || has_prop b k.
Proof. unfold has_prop. apply existsb_app. Qed.

Lemma get_prop_app (a b : list (string * value)) (k : string) :
  get_prop (a ++ b) k = if has_prop a k then get_prop a k else get_prop b k.
Proof.
  unfold has_prop. induction a as [|[k0 x] a IH]; cbn [app get_prop existsb fst];
    [reflexivity|].
  now destruct (String.eqb k0 k).
Qed.

Section WrapData.

Variables rb c : value.

Local Abbreviation wrap := (fun out p => wrapData out (fst p) (snd p) rb c).
Local Abbreviation deliver := (fun p : string * value => (fst p, delivered rb c (snd p))).

(** Reading the object that [wrapData] fills: the first value of a name
    decides. *)
Lemma fold_wrapData_lookup (ps acc : list (string * value)) (k : string) :
  has_prop (fold_left wrap ps acc) k = has_prop (acc ++ map deliver ps) k /\
  get_prop (fold_left wrap ps acc) k = get_prop (acc ++ map deliver ps) k.
Proof.
  revert acc. induction ps as [|[k0 x] ps IH]; intros acc; cbn [fold_left map fst snd].
  - now rewrite app_nil_r.
  - destruct (IH (wrapData acc k0 x rb c)) as [IHh IHg]. rewrite IHh, IHg.
    rewrite !has_prop_app, !get_prop_app.
    cbn [has_prop existsb get_prop fst]. fold (has_prop (map deliver ps) k).
    unfold wrapData. fold (delivered rb c x).
    destruct (has_prop acc k0) eqn:E0.
    + destruct (String.eqb_spec k0 k) as [->|_]; [|split; reflexivity].
      rewrite E0. split; reflexivity.
    + rewrite has_prop_add_prop, (get_prop_add_prop acc k0 k _ E0).
      destruct (String.eqb_spec k0 k) as [->|_].
      * rewrite E0. split; reflexivity.
      * split; reflexivity.
Qed.

Lemma fold_wrapData_NoDup (ps acc : list (string * value)) :
  NoDup (map fst acc) -> NoDup (map fst (fold_left wrap ps acc)).
Proof.
  revert acc. induction ps as [|[k x] ps IH]; intros acc Hnd; cbn [fold_left fst snd];
    [exact Hnd|].
  apply IH. unfold wrapData. destruct (has_prop acc k) eqn:E; [exact Hnd|].
  rewrite add_prop_names. apply NoDup_cons. split; [|exact Hnd].
  intros Hin. apply has_prop_spec in Hin. congruence.
Qed.

(** Distinct names, none of them an array index, are listed in the order
    of the reply. *)
Lemma fold_wrapData_plain (ps acc : list (string * value)) :
  NoDup (map fst (acc ++ ps)) ->
  (forall p, p ∈ ps -> array_index (fst p) = None) ->
  fold_left wrap ps acc = acc ++ map deliver ps.
Proof.
  revert acc. induction ps as [|[k x] ps IH]; intros acc Hnd Hidx; cbn [fold_left map fst snd].
  - now rewrite app_nil_r.
  - assert (Hk : k ∉ map fst acc).
    { rewrite map_app in Hnd. apply NoDup_app in Hnd as (_ & Hd & _).
      intros Hin. apply (Hd k Hin). cbn [map fst]. apply elem_of_cons. now left. }
    unfold wrapData at 2. rewrite (has_prop_fresh acc k Hk). unfold add_prop.
    assert (Hi : array_index k = None)
      by (apply (Hidx (k, x)); apply elem_of_cons; now left).
    rewrite Hi.
    fold (delivered rb c x). rewrite IH.
    + now rewrite <- app_assoc.
    + rewrite <- app_assoc. cbn [app]. rewrite !map_app in *. exact Hnd.
    + intros p Hp. apply Hidx. apply elem_of_cons. now right.
Qed.

End WrapData.




(** X10: the reply to a read of all fields.  Nothing that is not a truthy
    object delivers an object: the callback gets undefined.  For a record
    with no field named [hasOwnProperty], the callback gets the engine's
    error and an object with distinct property names that has a property
    exactly for each field name, holding the converted value of the
    first field of that name; with distinct names, none an array index,
    it lists the fields in the engine's order, and in raw mode a record
    of Buffers is delivered as it is. *)
Theorem hgetall_reply_record (st : store) (cb asBuffer err data : value)
  (ps : list (string * value)) :
  (truthy data && is_object data = false ->
   reply st (OnHgetall cb asBuffer) err data = [Invoke cb [err; Undefined]]) /\
  (plain_reply (OnHgetall cb asBuffer) (Obj ps) = true ->
   let pairs := map (fun p => (fst p, delivered asBuffer Undefined (snd p))) ps in
   exists out,
     reply st (OnHgetall cb asBuffer) err (Obj ps) = [Invoke cb [err; Obj out]] /\
     NoDup (map fst out) /\
     (forall name, has_prop out name = has_prop pairs name /\
                   get_prop out name = get_prop pairs name) /\
     (NoDup (map fst ps) ->
      (forall p, p ∈ ps -> array_index (fst p) = None) ->
      out = pairs /\
      (is_true asBuffer = true ->
       Forall (fun p => Buffer_isBuffer (snd p) = true) ps -> out = ps))).
Proof.
  split.
  - intros Hd. cbn [reply]. now rewrite Hd.
  - intros _ pairs.
    exists (fold_left (fun out q => wrapData out (fst q) (snd q) asBuffer Undefined) ps []).
    split; [reflexivity|]. split; [|split].
    + apply fold_wrapData_NoDup. constructor.
    + intros name.
      destruct (fold_wrapData_lookup asBuffer Undefined ps [] name) as [Hh Hg].
      now split.
    + intros Hnd Hidx.
      assert (E : fold_left (fun out q => wrapData out (fst q) (snd q) asBuffer Undefined)
                    ps [] = pairs) by now apply (fold_wrapData_plain _ _ _ []).
      split; [exact E|]. intros Hab Hbuf. rewrite E. unfold pairs.
      clear -Hab Hbuf. induction Hbuf as [|[k x] qs Hx Hqs IH]; [reflexivity|].
      cbn [map fst snd]. rewrite IH. f_equal. f_equal.
      unfold delivered. cbn [snd] in Hx. rewrite Hx, Hab.
      cbn [andb]. now rewrite orb_true_r.
Qed.

Lemma hgetall_reply_record_witness :
  exists out,
    reply (RedisStore no_options) (OnHgetall callback (Bool true)) Null
      (Obj [("alpha", Buf "dot dash"); ("xray", Buf "13")]) =
      [Invoke callback [Null; Obj out]] /\
    out = [("alpha", Buf "dot dash"); ("xray", Buf "13")].
Proof.
  destruct (proj2 (hgetall_reply_record (RedisStore no_options) callback (Bool true)
                     Null Undefined [("alpha", Buf "dot dash"); ("xray", Buf "13")])
              eq_refl)
    as (out & Hr & _ & _ & Hplain).
  exists out. split; [exact Hr|].
  apply Hplain.
  - cbn. repeat constructor; rewrite ?list_elem_of_In; cbn; intuition discriminate.
  - intros p Hp. repeat (apply elem_of_cons in Hp as [->|Hp]; [reflexivity|]).
    now apply elem_of_nil in Hp.
  - reflexivity.
  - repeat constructor.
Defined.

(** X11: what a write stores, a read returns.  With cast-mode on, a value
    that JSON text represents and that is not a string is encoded by the
    write to a text; when the engine hands that text back, as a string or
    as a Buffer, the read handlers of any store deliver the value. *)
Theorem written_value_read_back (st st' : store) (v cb field err : value) (name : string) :
  autoCast st = true ->
  json_value v = true ->
  String.eqb (typeof v) "string" = false ->
  exists t,
    _stringify st v = Str t /\
    reply st' (OnHmget cb [field] (Bool false)) err (Arr [Str t]) = [Invoke cb [err; v]] /\
    reply st' (OnHmget cb [field] (Bool false)) err (Arr [Buf t]) = [Invoke cb [err; v]] /\
    reply st' (OnHgetall cb (Bool false)) err (Obj [(name, Buf t)]) =
      [Invoke cb [err; Obj [(name, v)]]].
Proof.
  intros Hcast Hj Hs. destruct (json_value_some v Hj) as [pv Hpv].
  pose proof (JSON_parse_to_json v pv Hj Hpv) as Hparse.
  exists (str pv). split; [|split; [|split]].
  - unfold _stringify, JSON_stringify. rewrite Hcast, Hs, Hpv. now destruct v.
  - cbn [reply length Nat.eqb hd is_true andb convertValue _autoCast]. rewrite Hparse.
    now destruct v.
  - cbn [reply length Nat.eqb hd is_true andb convertValue _autoCast]. rewrite Hparse.
    now destruct v.
  - cbn [reply truthy is_object andb own_props fold_left fst snd].
    unfold wrapData, add_prop.
    cbn [has_prop existsb is_nullish is_true andb orb convertValue _autoCast].
    rewrite Hparse. now destruct (array_index name).
Qed.

Lemma written_value_read_back_witness :
  exists t,
    _stringify (RedisStore no_options) (Num (of_Z 13)) = Str t /\
    reply (RedisStore no_options) (OnHmget callback [Str "xray"] (Bool false)) Null
      (Arr [Str t]) = [Invoke callback [Null; Num (of_Z 13)]] /\
    reply (RedisStore no_options) (OnHmget callback [Str "xray"] (Bool false)) Null
      (Arr [Buf t]) = [Invoke callback [Null; Num (of_Z 13)]] /\
    reply (RedisStore no_options) (OnHgetall callback (Bool false)) Null
      (Obj [("xray", Buf t)]) = [Invoke callback [Null; Obj [("xray", Num (of_Z 13))]]].
Proof.
  apply (written_value_read_back (RedisStore no_options) (RedisStore no_options)
           (Num (of_Z 13)) callback (Str "xray") Null "xray"); reflexivity.
Defined.

(** ** What the decoder produces *)

Lemma digit_val_char (c : ascii) :
  is_digit c = true -> digit_char (digit_val c) = c /\ (digit_val c < 10)%N.
Proof.
  destruct c as [[] [] [] [] [] [] [] []]; intros H; try discriminate H;
    split; reflexivity.
Qed.

Lemma span_digits_all (t ds r : text) :
  span_digits t = (ds, r) -> Forall (fun c => is_digit c = true) ds.
Proof.
  revert ds r. induction t as [|c t IH]; intros ds r H; cbn [span_digits] in H.
  - injection H as <- <-. constructor.
  - destruct (is_digit c) eqn:Ec.
    + destruct (span_digits t) as [ds' r'] eqn:E. injection H as <- <-.
      constructor; [exact Ec | now apply (IH ds' r')].
    + injection H as <- <-. constructor.
Qed.

Lemma drop_zeros_rest (P : ascii -> Prop) (t r : text) (k : nat) :
  drop_zeros t = (k, r) ->
  match r with [] => True | c :: _ => is_zero_char c = false end /\
  (Forall P t -> Forall P r).
Proof.
  revert k r. induction t as [|c t IH]; intros k r H; cbn [drop_zeros] in H.
  - injection H as <- <-. now split.
  - destruct (is_zero_char c) eqn:Ec.
    + destruct (drop_zeros t) as [k' r'] eqn:E. injection H as <- <-.
      destruct (IH k' r' eq_refl) as [H1 H2]. split; [exact H1|].
      intros HP. apply H2. now inversion HP.
    + injection H as <- <-. now split.
Qed.

(** The decimal read from a run of digits is in normal form. *)
Lemma decimal_of_digits_normal (neg : bool) (ds : text) (e : Z) :
  Forall (fun c => is_digit c = true) ds ->
  is_normal (decimal_of_digits neg ds e) = true.
Proof.
  intros Hd. unfold decimal_of_digits, strip_trailing_zeros.
  destruct (drop_zeros (rev ds)) as [k r] eqn:E.
  destruct (drop_zeros_rest (fun c => is_digit c = true) _ _ _ E) as [Hhead Hall].
  assert (Hr : Forall (fun c => is_digit c = true) r).
  { apply Hall. now apply Forall_rev. }
  destruct (Z.eqb_spec (Z.of_N (digits_value (rev r))) 0) as [|Hm]; [reflexivity|].
  destruct r as [|c r']; [now cbn in Hm|].
  cbn [rev] in *. rewrite digits_value_snoc in *.
  inversion Hr as [|? ? Hc _]; subst.
  destruct (digit_val_char c Hc) as [Hcc Hlt].
  set (n := (digits_value (rev r') * 10 + digit_val c)%N) in *.
  assert (Habs : Z.abs_N (if neg then - Z.of_N n else Z.of_N n) = n)
    by (destruct neg; lia).
  unfold is_normal.
  destruct (Z.eqb_spec (if neg then - Z.of_N n else Z.of_N n) 0) as [E0|_];
    [destruct neg; lia|].
  rewrite Habs. destruct (digits_last n) as [t ->]. rewrite last_snoc_text.
  assert (Emod : (n mod 10 = digit_val c)%N).
  { unfold n. rewrite N.add_comm, N.Div0.mod_add. now apply N.mod_small. }
  now rewrite Emod, Hcc, Hhead.
Qed.

Lemma read_number_normal (t r : text) (n : number) :
  read_number t = Some (n, r) -> json_value (Num n) = true.
Proof.
  assert (Hmag : forall neg t, read_magnitude neg t = Some (n, r) ->
                               json_value (Num n) = true).
  { intros neg t0 H. unfold read_magnitude in H.
    destruct (read_integer t0) as [[ints t2]|] eqn:Ei; [|discriminate].
    destruct (read_fraction t2) as [[fs t3]|] eqn:Ef; [|discriminate].
    destruct (read_exponent t3) as [[x t4]|] eqn:Ex; [|discriminate].
    injection H as <- <-.
    assert (Hi : Forall (fun c => is_digit c = true) ints).
    { unfold read_integer in Ei. destruct t0 as [|c t0]; [discriminate|].
      destruct (Ascii.eqb_spec c zero_char) as [->|_].
      - injection Ei as <- <-. now repeat constructor.
      - destruct (is_digit c) eqn:Ec; [|discriminate].
        apply (span_digits_all (c :: t0) ints t2). congruence. }
    assert (Hf : Forall (fun c => is_digit c = true) fs).
    { unfold read_fraction in Ef. destruct t2 as [|c t2]; [injection Ef as <- <-; constructor|].
      destruct (Ascii.eqb c "."%char).
      - destruct (span_digits t2) as [[|d ds] r'] eqn:Es; [discriminate|].
        injection Ef as <- <-. now apply span_digits_all in Es.
      - injection Ef as <- <-. constructor. }
    pose proof (decimal_of_digits_normal neg (ints ++ fs) (x - Z.of_nat (length fs))
                  (proj2 (Forall_app _ _ _) (conj Hi Hf))) as Hn.
    unfold decimal_of_digits in *. destruct (strip_trailing_zeros (ints ++ fs)).
    destruct (_ =? 0); exact Hn. }
  unfold read_number. destruct t as [|c t]; [discriminate|].
  destruct (Ascii.eqb c "-"%char); apply Hmag.
Qed.

Lemma expect_value (lit : string) (v v' : value) (t r : text) :
  expect lit v t = Some (v', r) -> v' = v.
Proof. unfold expect. destruct (decide _); [now intros [= <- _] | discriminate]. Qed.

Lemma set_prop_keeps (acc : list (string * value)) (k : string) (v : value) :
  NoDup (map fst acc) ->
  forallb (fun p => json_value (snd p)) acc = true ->
  json_value v = true ->
  NoDup (map fst (set_prop acc k v)) /\
  forallb (fun p => json_value (snd p)) (set_prop acc k v) = true.
Proof.
  intros Hnd Hj Hv. induction acc as [|[k' x] acc IH]; cbn [set_prop].
  - cbn. rewrite Hv. split; [apply NoDup_singleton | reflexivity].
  - cbn [map fst forallb snd] in *. apply andb_true_iff in Hj as [Hx Hacc].
    apply NoDup_cons in Hnd as [Hk' Hnd].
    destruct (String.eqb_spec k' k) as [->|Hne]; cbn [map fst forallb snd].
    + rewrite Hv, Hacc. split; [now apply NoDup_cons | reflexivity].
    + destruct (IH Hnd Hacc) as [IH1 IH2]. rewrite Hx, IH2. split; [|reflexivity].
      apply NoDup_cons. split; [|exact IH1].
      intros Hin. apply Hk'. clear -Hin Hne.
      induction acc as [|[k0 y] acc IHa]; cbn [set_prop map fst] in *.
      * apply list_elem_of_singleton in Hin. congruence.
      * destruct (String.eqb k0 k); cbn [map fst] in *; [exact Hin|].
        apply elem_of_cons in Hin as [->|Hin]; [apply elem_of_cons; now left|].
        apply elem_of_cons. right. now apply IHa.
Qed.

Lemma read_json (fuel : nat) :
  (forall t v r, read_value fuel t = Some (v, r) -> json_value v = true) /\
  (forall t acc v r,
      read_elements fuel t acc = Some (v, r) ->
      forallb json_value acc = true -> json_value v = true) /\
  (forall t acc v r,
      read_members fuel t acc = Some (v, r) ->
      NoDup (map fst acc) ->
      forallb (fun p => json_value (snd p)) acc = true -> json_value v = true).
Proof.
  induction fuel as [|f (IHv & IHe & IHm)]; [repeat split; discriminate|].
  repeat split.
  - intros t v r H. cbn [read_value] in H.
    destruct (skip_ws t) as [|c r0]; [discriminate|].
    destruct (Ascii.eqb c "n"%char); [now apply expect_value in H; subst|].
    destruct (Ascii.eqb c "t"%char); [now apply expect_value in H; subst|].
    destruct (Ascii.eqb c "f"%char); [now apply expect_value in H; subst|].
    destruct (Ascii.eqb c quote_char).
    { destruct (read_string r0) as [[s r']|]; [|discriminate]. now injection H as <- <-. }
    destruct (Ascii.eqb c "["%char).
    { destruct (skip_ws r0) as [|c' r']; [discriminate|].
      destruct (Ascii.eqb c' "]"%char); [now injection H as <- <-|].
      now apply IHe in H. }
    destruct (Ascii.eqb c "{"%char).
    { destruct (skip_ws r0) as [|c' r']; [discriminate|].
      destruct (Ascii.eqb c' "}"%char); [now injection H as <- <-|].
      apply IHm in H; [exact H | constructor | reflexivity]. }
    destruct (read_number (c :: r0)) as [[n r']|] eqn:En; [|discriminate].
    injection H as <- <-. now apply read_number_normal in En.
  - intros t acc v r H Hacc. cbn [read_elements] in H.
    destruct (read_value f t) as [[v1 r1]|] eqn:E1; [|discriminate].
    apply IHv in E1.
    assert (Hacc' : forallb json_value (acc ++ [v1]) = true).
    { rewrite forallb_app, Hacc. cbn. now rewrite E1. }
    destruct (skip_ws r1) as [|c r']; [discriminate|].
    destruct (Ascii.eqb c ","%char); [now apply IHe in H|].
    destruct (Ascii.eqb c "]"%char); [|discriminate].
    now injection H as <- <-.
  - intros t acc v r H Hnd Hacc. cbn [read_members] in H.
    destruct (skip_ws t) as [|q r0]; [discriminate|].
    destruct (Ascii.eqb q quote_char); [|discriminate].
    destruct (read_string r0) as [[k r1]|]; [|discriminate].
    destruct (skip_ws r1) as [|c1 r2]; [discriminate|].
    destruct (Ascii.eqb c1 ":"%char); [|discriminate].
    destruct (read_value f r2) as [[v1 r3]|] eqn:E1; [|discriminate].
    apply IHv in E1.
    destruct (set_prop_keeps acc (str k) v1 Hnd Hacc E1) as [Hnd' Hacc'].
    destruct (skip_ws r3) as [|c r']; [discriminate|].
    destruct (Ascii.eqb c ","%char); [now apply IHm in H|].
    destruct (Ascii.eqb c "}"%char); [|discriminate].
    injection H as <- <-. cbn [json_value].
    apply andb_true_iff. split; [now apply bool_decide_eq_true | exact Hacc'].
Qed.

(** X12: what the decoder produces is JSON data.  Whenever a text
    parses to a value whose numbers are integers below [2^53] in
    magnitude, the value is null, a boolean, a number in normal form, a
    string, or an array or object of such values with distinct property
    names; hence, unless it is a string, it comes back unchanged from a
    further encoding and decoding.  (Beyond these numbers the language
    rounds to doubles, which the exact decimals here do not follow.) *)
Theorem decoded_is_json (st : store) (s : string) (v : value) :
  JSON_parse s = Some v ->
  safe_numbers v = true ->
  json_value v = true /\
  (autoCast st = true -> String.eqb (typeof v) "string" = false ->
   _parse st (_stringify st v) = v).
Proof.
  intros H _. unfold JSON_parse in H.
  destruct (read_value _ _) as [[v' rest]|] eqn:E; [|discriminate].
  destruct (skip_ws rest); [|discriminate]. injection H as ->.
  apply (proj1 (read_json _)) in E. split; [exact E|].
  intros Hcast Hs. destruct (json_value_some v E) as [pv Hpv].
  unfold _stringify, JSON_stringify. rewrite Hcast, Hs, Hpv.
  replace (Buffer_isBuffer v) with false by now destruct v.
  cbn [negb orb]. unfold _parse, convertValue. cbn [Buffer_isBuffer].
  now rewrite Hcast, (JSON_parse_to_json v pv E Hpv).
Qed.

Lemma decoded_is_json_witness :
  json_value (Arr [Num (of_Z 1); Num (of_Z 250)]) = true /\
  _parse (RedisStore no_options)
    (_stringify (RedisStore no_options) (Arr [Num (of_Z 1); Num (of_Z 250)])) =
  Arr [Num (of_Z 1); Num (of_Z 250)].
Proof.
  destruct (decoded_is_json (RedisStore no_options) "[1, 250]"
              (Arr [Num (of_Z 1); Num (of_Z 250)]) eq_refl eq_refl) as [Hj Hr].
  split; [exact Hj | now apply Hr].
Defined.

(** ** The caller's objects under a write *)

Lemma last_elem_of {A} (l : list A) (d : A) :
  List.last l d = d \/ List.last l d ∈ l.
Proof.
  induction l as [|a [|b l] IH]; [now left | right; apply elem_of_cons; now left |].
  destruct IH as [IH|IH]; [left; exact IH | right; apply elem_of_cons; right; exact IH].
Qed.

Lemma removelast_elem_of {A} (l : list A) (a : A) : a ∈ removelast l -> a ∈ l.
Proof.
  induction l as [|b [|c l] IH]; cbn [removelast]; intros H.
  - exact H.
  - now apply elem_of_nil in H.
  - apply elem_of_cons in H as [->|H]; apply elem_of_cons; [now left | right; now apply IH].
Qed.

Lemma tl_elem_of {A} (l : list A) (a : A) : a ∈ tl l -> a ∈ l.
Proof. destruct l; [trivial | intros H; apply elem_of_cons; now right]. Qed.

(** Array unwrapping stays within the cells of the arguments. *)
Lemma unwrap_cell (h : heap) (args : list arg) (l : loc) :
  (forall p, At l p ∉ args) -> forall p, At l p ∉ unwrap h args.
Proof.
  intros Hno p. unfold unwrap. destruct args as [|a [|b r]]; try apply Hno.
  destruct (Array_isArray (load h a)); [|apply Hno].
  unfold elements. destruct (load h a); try apply not_elem_of_nil.
  destruct a as [v|l0 p0].
  - intros Hin. apply list_elem_of_fmap in Hin as (x & Hx & _). discriminate.
  - intros Hin. apply elem_of_lookup_imap in Hin as (i & x & Hx & _).
    injection Hx as -> _. apply (Hno p0), elem_of_cons. now left.
Qed.

Lemma update_other_cell (h : heap) (a : arg) (v : value) (l : loc) :
  (forall p, a <> At l p) -> fst (update h a v) !! l = h !! l.
Proof.
  intros Hno. destruct a as [x|l0 p0]; [reflexivity|].
  cbn [update fst]. unfold store_at. destruct (h !! l0); [|reflexivity].
  apply lookup_insert_ne. intros ->. now apply (Hno p0).
Qed.

(** X13: a write changes no object of the caller other than one handed to
    it: a cell of the heap that no argument refers to holds the same
    value afterwards. *)
Theorem set_leaves_other_cells (st : store) (h : heap) (arguments : list arg) (l : loc) :
  (forall p, At l p ∉ arguments) ->
  fst (fst (set st h arguments)) !! l = h !! l.
Proof.
  intros Hno. unfold set, pop. cbn [shift].
  assert (Hlast : forall p, List.last arguments (Imm Undefined) <> At l p).
  { intros p E. destruct (last_elem_of arguments (Imm Undefined)) as [E'|Hin].
    - rewrite E in E'. discriminate.
    - rewrite E in Hin. now apply (Hno p). }
  assert (Hrest : forall p, At l p ∉ tl (removelast arguments)).
  { intros p Hin. apply tl_elem_of, removelast_elem_of in Hin. now apply (Hno p). }
  set (cb := List.last arguments (Imm Undefined)) in *.
  set (rest := tl (removelast arguments)) in *.
  assert (Hargs : forall args cb',
             (forall p, At l p ∉ args) ->
             fst (fst
               (if truthy (cacheKey st (load h (hd (Imm Undefined) (removelast arguments))))
                then
                  match unwrap h args with
                  | [] =>
                      (h, ReturnThis,
                       if is_function cb'
                       then [Invoke cb' [Err "Invalid data"; Num (Dec 0 0)]] else [])
                  | a0 :: r0 =>
                      let args0 := unwrap h (a0 :: r0) in
                      let '(h', data) :=
                        match args0 with
                        | [a] =>
                            if is_object (load h a)
                            then update h a (encode_in_place st (load h a))
                            else (h, Imm Undefined)
                        | _ =>
                            let vs := map (load h) args0 in
                            (h, Imm (Obj
                               (match vs with
                                | [f; v] => assign [] (ToString f) (_stringify st v)
                                | _ :: _ :: _ :: _ => set_pairs st vs []
                                | _ => []
                                end)))
                        end in
                      (h', ReturnThis,
                       [Issue (hmset (cacheKey st (load h (hd (Imm Undefined)
                                                            (removelast arguments)))) data)
                          (Direct (if truthy cb' then cb' else noop))])
                  end
                else
                  (h, ReturnThis,
                   if is_function cb'
                   then [Invoke cb' [Err "Invalid key"; Num (Dec 0 0)]] else []))) !! l
             = h !! l).
  { intros args cb' Ha. destruct (truthy _); [|reflexivity].
    pose proof (unwrap_cell h args l Ha) as H1.
    destruct (unwrap h args) as [|a0 r0]; [reflexivity|].
    pose proof (unwrap_cell h (a0 :: r0) l H1) as H2.
    cbv zeta. destruct (unwrap h (a0 :: r0)) as [|a [|b r]]; try reflexivity.
    destruct (is_object (load h a)); [|reflexivity].
    pose proof (update_other_cell h a (encode_in_place st (load h a)) l) as Hu.
    destruct (update h a _) as [h' data]. apply Hu.
    intros p ->. apply (H2 p), elem_of_cons. now left. }
  destruct (truthy (load h cb) && negb (is_function (load h cb))).
  - apply (Hargs (rest ++ [cb]) Null). intros p Hin.
    apply elem_of_app in Hin as [Hin|Hin]; [now apply (Hrest p)|].
    apply list_elem_of_singleton in Hin. now apply (Hlast p).
  - apply (Hargs rest (load h cb)). exact Hrest.
Qed.

Lemma set_leaves_other_cells_witness :
  let h : heap := {[ 1%positive := Obj [("xray", Num (of_Z 13))];
                     2%positive := Obj [("alpha", Null)] ]} in
  fst (fst (set (RedisStore no_options) h
              [Imm (Str "icao"); At 1%positive []; Imm callback])) !! 2%positive
  = h !! 2%positive.
Proof.
  intros h. apply set_leaves_other_cells.
  intros p Hin. repeat (apply elem_of_cons in Hin as [Hin|Hin]; [discriminate|]).
  now apply elem_of_nil in Hin.
Defined.

Lemma stringify_again (st : store) (v : value) :
  _stringify st (_stringify st v) = _stringify st v.
Proof.
  unfold _stringify, JSON_stringify.
  destruct (autoCast st); cbn [negb orb]; [|reflexivity].
  destruct (Buffer_isBuffer v) eqn:Eb; cbn [orb]; [now rewrite Eb|].
  destruct (String.eqb (typeof v) "string") eqn:Es; [now rewrite Eb, Es|].
  now destruct (to_json v).
Qed.

(** A write of the caller's field map, whatever stands in the callback's
    place unless it is further data. *)
Lemma set_callers_map (st : store) (h : heap) (l : loc)
  (ps : list (string * value)) (c : ascii) (k : string) (cb : value) :
  h !! l = Some (Obj ps) ->
  truthy cb && negb (is_function cb) = false ->
  set st h [Imm (Str (String c k)); At l []; Imm cb] =
    (<[l := Obj (map (fun p => (fst p, _stringify st (snd p))) ps)]> h, ReturnThis,
     [Issue (hmset (Str (String c k)) (At l [])) (Direct (if truthy cb then cb else noop))]).
Proof.
  intros Hl Hcb. unfold set, unwrap.
  cbn [pop shift List.last removelast hd tl app load]. rewrite Hcb.
  cbn [cacheKey typeof truthy is_function negb andb orb String.eqb Ascii.eqb Bool.eqb].
  rewrite !(load_at h l [] _ Hl). cbn [follow Array_isArray is_object].
  rewrite ?(load_at h l [] _ Hl). cbn [follow Array_isArray is_object].
  cbn [update]. rewrite ?(load_at h l [] _ Hl), (store_at_at h l [] _ _ Hl).
  reflexivity.
Qed.

(** X14: writing the caller's field map a second time changes nothing
    more: the map, already encoded by the first write, stays as it is, and
    the engine is sent the same command. *)
Theorem set_again_same (st : store) (h : heap) (l : loc)
  (ps : list (string * value)) (c : ascii) (k : string) (cb : value) :
  h !! l = Some (Obj ps) ->
  let arguments := [Imm (Str (String c k)); At l []; Imm cb] in
  set st (fst (fst (set st h arguments))) arguments = set st h arguments.
Proof.
  intros Hl arguments. unfold arguments.
  destruct (truthy cb && negb (is_function cb)) eqn:Hcb.
  - assert (E : fst (fst (set st h [Imm (Str (String c k)); At l []; Imm cb])) = h).
    { unfold set, unwrap. cbn [pop shift List.last removelast hd tl app load].
      rewrite Hcb.
      cbn [cacheKey typeof truthy is_function negb andb orb String.eqb Ascii.eqb Bool.eqb].
      reflexivity. }
    now rewrite E.
  - rewrite (set_callers_map st h l ps c k cb Hl Hcb). cbn [fst].
    rewrite (set_callers_map st _ l _ c k cb (lookup_insert_eq _ _ _) Hcb).
    rewrite insert_insert_eq, map_map. cbn [fst snd].
    do 4 f_equal. apply map_ext. intros [name v]. cbn [fst snd].
    now rewrite stringify_again.
Qed.

Lemma set_again_same_witness :
  let st := RedisStore no_options in
  let h : heap := {[ 1%positive := Obj [("xray", Num (of_Z 13)); ("alpha", Str "dot dash")] ]} in
  let arguments := [Imm (Str "icao"); At 1%positive []; Imm callback] in
  set st (fst (fst (set st h arguments))) arguments = set st h arguments.
Proof.
  intros st h.
  apply (set_again_same st h 1%positive
           [("xray", Num (of_Z 13)); ("alpha", Str "dot dash")] "i"%char "cao" callback).
  reflexivity.
Defined.

(** ** The last argument of a bulk clear *)



(** ** Raw reads *)




(** ** The connection *)

(** X17: the calls the constructor makes to obtain its client.  A client
    supplied in the options is used as it is and nothing is asked of it.
    Otherwise a client is created from the port, host and options given;
    a password, if any, is sent next, and a database is selected at most
    once, always by a number that is not NaN, after the reply to the
    password when there is one, whatever that reply is. *)
Theorem client_calls (o : connection) :
  (truthy (opt_client o) = true -> RedisStore_client o = []) /\
  (truthy (opt_client o) = false ->
   let pw := or_else (or_else (opt_pw o) (opt_pass o)) (opt_password o) in
   exists sel,
     (sel = [] \/ exists n, isNaN n = false /\ sel = [select (Num n)]) /\
     RedisStore_client o =
       createClient (opt_port o) (opt_host o) (opt_options o) ::
       (if truthy pw then [auth pw sel] else sel)).
Proof.
  unfold RedisStore_client. split; intros Hc; rewrite Hc; [reflexivity|].
  cbv zeta.
  match goal with
  | |- context [is_database ?d] => set (db := d)
  end.
  exists (if is_database db then [select db] else []). split.
  - destruct (is_database db) eqn:E; [right | now left].
    destruct db as [| |b|n|s|b|l|ps|f|m]; try discriminate.
    exists n. split; [|reflexivity]. cbn [is_database] in E. now destruct (isNaN n).
  - reflexivity.
Qed.

Lemma client_calls_witness :
  let o := {| opt_client := Undefined; opt_port := Num (of_Z 6379);
              opt_host := Str "localhost"; opt_options := Undefined;
              opt_pw := Undefined; opt_pass := Str "secret";
              opt_password := Undefined; opt_db := Str "3";
              opt_database := Undefined |} in
  exists sel,
    (sel = [] \/ exists n, isNaN n = false /\ sel = [select (Num n)]) /\
    RedisStore_client o =
      [createClient (Num (of_Z 6379)) (Str "localhost") Undefined; auth (Str "secret") sel].
Proof.
  intros o. exact (proj2 (client_calls o) eq_refl).
Defined.

(** X18: which database is selected.  It is the one that [db], or
    [database] when [db] is falsy, names, and the password has no part in
    it: a number is selected as it is, a string and any other truthy value
    by the integer that its text begins with, and nothing is selected
    when there is no such integer or the number is NaN.  So the number 0
    given as [db] gives way to [database], while the text of 0 selects
    database 0. *)
Theorem database_selected (o : connection) :
  truthy (opt_client o) = false ->
  selected (RedisStore_client o) = named_database o.
Proof.
  intros Hc. unfold RedisStore_client, named_database, selected. rewrite Hc.
  destruct (truthy (or_else (or_else (opt_pw o) (opt_pass o)) (opt_password o)));
    destruct (or_else (opt_db o) (opt_database o)) as [| |[]|[m e| |neg]|s|b|l|ps|f|m];
    cbn [typeof String.eqb Ascii.eqb Bool.eqb negb andb orb truthy is_database isNaN
         flat_map app];
    try reflexivity;
    repeat match goal with
      | |- context [parseInt ?s] => generalize (parseInt s); intros [m' e'| |neg']
      | |- context [negb (?x =? 0)] => destruct (x =? 0)
      | |- context [?x =? ""] => destruct (x =? "")%string
      end;
    rewrite ?orb_true_r;
    cbn [typeof String.eqb Ascii.eqb Bool.eqb negb andb orb truthy is_database isNaN
         flat_map app];
    reflexivity.
Qed.

Lemma database_selected_witness :
  selected (RedisStore_client
    {| opt_client := Undefined; opt_port := Undefined; opt_host := Undefined;
       opt_options := Undefined; opt_pw := Undefined; opt_pass := Undefined;
       opt_password := Undefined; opt_db := Num (of_Z 0); opt_database := Str "2" |}) =
  [Num (of_Z 2)].
Proof.
  exact (database_selected
    {| opt_client := Undefined; opt_port := Undefined; opt_host := Undefined;
       opt_options := Undefined; opt_pw := Undefined; opt_pass := Undefined;
       opt_password := Undefined; opt_db := Num (of_Z 0); opt_database := Str "2" |}
    eq_refl).
Defined.

(** ** Patterns and keys *)

(** X19: a pattern is judged by its type and a key by its truthiness.  A
    key search is sent for every number, zero and NaN included, and for
    every non-empty string, an array being composed first; every other
    pattern is reported as invalid.  A read under the key 0 is refused. *)
Theorem keys_pattern_validity (st : store) (pattern : value) (f : string) :
  (is_function pattern = false ->
   keys st pattern (Fun f) =
     (ReturnThis,
      match cacheKey st pattern with
      | Num n => [Issue (client_keys (Num n)) (OnKeys (Fun f))]
      | Str (String c s) => [Issue (client_keys (Str (String c s))) (OnKeys (Fun f))]
      | _ => [Invoke (Fun f) [Err "Invalid pattern"]]
      end)) /\
  get st [Num (Dec 0 0); Fun f] = (ReturnThis, [Invoke (Fun f) [Err "Invalid key"]]).
Proof.
  split; [|reflexivity].
  intros Hp. unfold keys. rewrite Hp. cbn [is_function negb].
  destruct pattern as [| |b|n|s|b|l|ps|g|m]; try reflexivity; try discriminate.
  - now destruct s.
  - destruct l as [|x r]; [reflexivity|].
    cbn [Array_isArray cacheKey typeof String.eqb Ascii.eqb Bool.eqb andb orb truthy].
    destruct (Array_join (x :: r) (delimiter st)); reflexivity.
Qed.

Lemma keys_pattern_validity_witness :
  keys (RedisStore no_options) (Num (Dec 0 0)) callback =
    (ReturnThis, [Issue (client_keys (Num (Dec 0 0))) (OnKeys callback)]).
Proof.
  apply (proj1 (keys_pattern_validity (RedisStore no_options) (Num (Dec 0 0))
                  "function(err, result) {}")).
  reflexivity.
Defined.

(** ** The caller's arrays under a read, a delete and a bulk clear *)

(** X20: an array handed to [del], [get] or [flush] as the whole list of
    fields or keys is edited, which shows when the caller uses it again.
    After a delete it has the composed key in front, so the same call
    made again asks the engine to delete the key's name as a field too.
    After a read it has lost a leading flag, so the same call made again
    no longer asks for raw bytes.  After a bulk clear it holds the
    composed keys. *)
Theorem argument_array_edited (st : store) (h : heap) (k : value) (f : string)
  (l : loc) (b : bool) (x : value) (vs : list value) :
  truthy (cacheKey st k) = true ->
  let cb := Fun f in
  let key := cacheKey st k in
  (h !! l = Some (Arr vs) ->
   let h1 := fst (fst (del_in st h [Imm k; At l []; Imm cb])) in
   del_in st h [Imm k; At l []; Imm cb] =
     (h1, ReturnThis, [Issue (hdel (key :: vs)) (OnHdel cb)]) /\
   h1 !! l = Some (Arr (key :: vs)) /\
   snd (del_in st h1 [Imm k; At l []; Imm cb]) =
     [Issue (hdel (key :: key :: vs)) (OnHdel cb)]) /\
  (h !! l = Some (Arr (Bool b :: vs)) ->
   let h1 := fst (fst (get_in st h [Imm k; At l []; Imm cb])) in
   h1 !! l = Some (Arr vs) /\
   snd (get_in st h [Imm k; At l []; Imm cb]) = snd (get st [k; Arr (Bool b :: vs); cb]) /\
   snd (get_in st h1 [Imm k; At l []; Imm cb]) = snd (get st [k; Arr vs; cb])) /\
  (h !! l = Some (Arr (x :: vs)) ->
   let h1 := fst (fst (flush_in st h [At l []; Imm cb])) in
   flush_in st h [At l []; Imm cb] =
     (h1, ReturnThis,
      [Issue (client_del (map (cacheKey st) (x :: vs))) (Direct cb)]) /\
   h1 !! l = Some (Arr (map (cacheKey st) (x :: vs)))).
Proof.
  intros Hk cb key. subst cb key. split; [|split].
  - intros Hl.
    assert (E : del_in st h [Imm k; At l []; Imm (Fun f)] =
                (<[l := Arr (cacheKey st k :: vs)]> h, ReturnThis,
                 [Issue (hdel (cacheKey st k :: vs)) (OnHdel (Fun f))])).
    { unfold del_in, sole_array, del.
      cbn [pop shift List.last removelast hd tl app map load is_function negb].
      rewrite (load_at h l [] _ Hl). cbn [follow]. rewrite Hk.
      cbn [update fst]. now rewrite (store_at_at h l [] _ _ Hl). }
    cbv zeta. rewrite E. cbn [fst snd]. split; [reflexivity|].
    split; [apply lookup_insert_eq|].
    unfold del_in, sole_array, del.
    cbn [pop shift List.last removelast hd tl app map load is_function negb].
    rewrite (load_at _ l [] (Arr (cacheKey st k :: vs))) by apply lookup_insert_eq.
    cbn [follow]. now rewrite Hk.
  - intros Hl.
    assert (E : fst (fst (get_in st h [Imm k; At l []; Imm (Fun f)])) = <[l := Arr vs]> h).
    { unfold get_in, sole_array.
      cbn [pop shift List.last removelast hd tl app map load is_function andb].
      rewrite (load_at h l [] _ Hl). cbn [follow]. rewrite Hk.
      destruct (get st _) as [o evs]. cbn [fst].
      destruct b; cbn [is_true is_false orb update fst];
        now rewrite (store_at_at h l [] _ _ Hl). }
    cbv zeta. rewrite E. split; [apply lookup_insert_eq|]. split.
    + unfold get_in. cbn [pop shift List.last removelast hd tl app map load].
      rewrite (load_at h l [] _ Hl). cbn [follow].
      now destruct (get st _) as [o evs].
    + unfold get_in. cbn [pop shift List.last removelast hd tl app map load].
      rewrite (load_at _ l [] (Arr vs)) by apply lookup_insert_eq. cbn [follow].
      now destruct (get st _) as [o evs].
  - intros Hl.
    assert (E : flush_in st h [At l []; Imm (Fun f)] =
                (<[l := Arr (map (cacheKey st) (x :: vs))]> h, ReturnThis,
                 [Issue (client_del (map (cacheKey st) (x :: vs))) (Direct (Fun f))])).
    { unfold flush_in, sole_array, flush.
      cbn [pop shift List.last removelast hd tl app map load Array_isArray negb].
      rewrite (load_at h l [] _ Hl). cbn [follow update fst truthy map].
      now rewrite (store_at_at h l [] _ _ Hl). }
    cbv zeta. rewrite E. cbn [fst]. split; [reflexivity | apply lookup_insert_eq].
Qed.

Lemma argument_array_edited_witness :
  let st := RedisStore no_options in
  let h : heap := {[ 1%positive := Arr [Str "alpha"; Str "bravo"] ]} in
  let h1 := fst (fst (del_in st h [Imm (Str "icao"); At 1%positive []; Imm callback])) in
  h1 !! 1%positive = Some (Arr [Str "icao"; Str "alpha"; Str "bravo"]) /\
  snd (del_in st h1 [Imm (Str "icao"); At 1%positive []; Imm callback]) =
    [Issue (hdel [Str "icao"; Str "icao"; Str "alpha"; Str "bravo"]) (OnHdel callback)].
Proof.
  intros st h h1.
  destruct (proj1 (argument_array_edited st h (Str "icao") "function(err, result) {}"
                     1%positive true Undefined [Str "alpha"; Str "bravo"] eq_refl)
              eq_refl) as (_ & H1 & H2).
  split; [exact H1 | exact H2].
Defined.
